(** * pkg/master/master.go: assembly of the cluster master

    A shallow embedding of [Config], [Master], [NewEtcdHelper], [New],
    [makeMinionRegistry], [Master.init], [Master.API_v1beta1] and
    [Master.API_v1beta2], together
    with the properties of the registry chain, of the storage map and of
    the event time-to-live that the design document states about them.

    Go packages are rendered as modules, so that [api.Minion],
    [etcd.NewRegistry] or [minion.NewCachingRegistry] read as in the source.
    Objects that live outside this file of the source (the etcd helper, the
    cloud provider, the HTTP client, ...) are referred to by handle. *)

From ITree Require Import ITree ITreeFacts.
From Paco Require Import paco.
From Stdlib Require Import ZArith List String Bool Lia.
From Stdlib Require Import Floats.SpecFloat.
From stdpp Require Import gmap strings list fin_maps.

Local Open Scope string_scope.
Local Open Scope list_scope.

(** ** Collaborating packages *)

(** A Go [error] value; [nil] is [None] of [option error]. *)
Definition error := string.

Module float64.
(** IEEE 754 binary64, by the specification the Rocq library gives of
    it: 53 bits of precision, round to nearest even. *)
Definition t := spec_float.
Definition add : t -> t -> t := SFadd 53 1024.
Definition mul : t -> t -> t := SFmul 53 1024.
Definition div : t -> t -> t := SFdiv 53 1024.

(** [float64(n)] for an integer [n]. *)
Definition of_int (n : Z) : t := binary_normalize 53 1024 n 0 false.

(** The constant [1e-9]: the binary64 value nearest to 10^-9. *)
Definition lit_1e_9 : t := S754_finite false 4835703278458517 (-82).
(** The constant [1e9], which binary64 represents exactly. *)
Definition lit_1e9 : t := S754_finite false 8388608000000000 (-23).

(** The integer part of a finite value: the fraction is discarded. *)
Definition trunc (f : t) : option Z :=
  match f with
  | S754_zero _ => Some 0%Z
  | S754_finite s m e => Some (cond_Zopp s (Z.shiftl (Zpos m) e))
  | S754_infinity _ | S754_nan => None
  end.

(** [uint64(f)].  The fraction is discarded; when the integer part is
    not a [uint64] the language leaves the result to the implementation,
    which [outOfRange] stands for. *)
Definition to_uint64 (outOfRange : t -> Z) (f : t) : Z :=
  match trunc f with
  | Some z => if ((0 <=? z) && (z <? 2 ^ 64))%Z then z else outOfRange f
  | None => outOfRange f
  end.

(** Two implementations of the out-of-range case: the two's complement
    wrap-around of the integer part, and saturation at zero. *)
Definition wrapAround (f : t) : Z :=
  match trunc f with
  | Some z => (z mod 2 ^ 64)%Z
  | None => (2 ^ 63)%Z
  end.
Definition saturate (f : t) : Z :=
  match f with
  | S754_finite false _ _ | S754_infinity false => (2 ^ 64 - 1)%Z
  | _ => 0%Z
  end.
End float64.

(** Rounding to binary64: a sign, a mantissa, an exponent, and what lies
    beyond the mantissa. *)
Abbreviation round64 := (binary_round_aux 53 1024).

(** What the round bit of a shifted record tells: when it is set, the
    bits shifted out are at least half of what they could be. *)
Definition shifted (M n : Z) (mrs : shr_record) : Prop :=
  shr_m mrs = (M / 2 ^ n)%Z /\
  (shr_r mrs = true -> (2 ^ n <= 2 * (M mod 2 ^ n))%Z).

Module time.
(** [time.Duration] is an [int64] count of nanoseconds. *)
Definition Duration := Z.
Definition Second : Duration := 1000000000%Z.

(** [Duration.Seconds] of the Go library of the time:
    [sec := d / Second; nsec := d % Second;
     return float64(sec) + float64(nsec)*1e-9],
    the integer division and remainder truncating toward zero. *)
Definition Seconds (d : Duration) : float64.t :=
  let sec := Z.quot d Second in
  let nsec := Z.rem d Second in
  float64.add (float64.of_int sec)
              (float64.mul (float64.of_int nsec) float64.lit_1e_9).

(** The same method as later releases of the library write it:
    [return float64(sec) + float64(nsec)/1e9]. *)
Definition Seconds_div (d : Duration) : float64.t :=
  let sec := Z.quot d Second in
  let nsec := Z.rem d Second in
  float64.add (float64.of_int sec)
              (float64.div (float64.of_int nsec) float64.lit_1e9).
End time.

Module client.
Record Client := { client_id : nat }.
Record PodInfoGetter := { getter_id : nat }.
End client.

Module cloudprovider.
Record Interface := { cloud_id : nat }.
End cloudprovider.

Module tools.
Record EtcdHelper := { helper_id : nat }.
End tools.

Module http.
(** [&http.Client{}]: the zero client. *)
Inductive Client := ZeroClient.
End http.

Module api.
Record NodeResources := { Capacity : list (string * Z) }.
Record TypeMeta := { ID : string }.
Record Minion := { TypeMeta_ : TypeMeta; NodeResources_ : NodeResources }.
End api.

Module etcd.
(** [etcd.NewRegistry(helper, manifestFactory)]; the manifest factory is
    [nil] or a [&pod.BasicManifestFactory{ServiceRegistry: r}]. *)
Inductive Registry :=
| NewRegistry (helper : tools.EtcdHelper) (manifestFactory : ManifestFactory)
with ManifestFactory :=
| NilFactory
| BasicManifestFactory (ServiceRegistry : Registry).

Definition helper_of (r : Registry) : tools.EtcdHelper :=
  match r with NewRegistry h _ => h end.
End etcd.

Module event.
(** [event.NewEtcdRegistry(helper, ttl)], [ttl] a [uint64] of seconds. *)
Record Registry := NewEtcdRegistry { ev_helper : tools.EtcdHelper; ev_ttl : Z }.
Record REST := NewREST { registry : Registry }.
End event.

Module minion.
(** The implementations of the [minion.Registry] interface the master
    composes.  The design document calls them Static, CloudDiscovered,
    HealthFiltered and Cached. *)
Inductive Registry :=
| EtcdRegistry (r : etcd.Registry)
| CloudRegistry (cloud : cloudprovider.Interface) (matchRE : string)
                (staticResources : api.NodeResources)
| HealthyRegistry (delegate : Registry) (client : http.Client)
| CachingRegistry (delegate : Registry) (ttl : time.Duration).

Section constructors.
(** The constructors are not part of this file of the source; whether
    one of them fails is left to the environment. *)
Variable Store : Type.
Variable cloudFailure :
  cloudprovider.Interface -> string -> api.NodeResources -> option error.
Variable cachingFailure : Registry -> time.Duration -> Store -> option error.

(** Modelled from the spec: [minion.NewCloudRegistry] is missing from the
    sources at hand.  It either builds the registry backed by the cloud
    integration and the filter pattern, or fails with an error and a
    [nil] registry. *)
Definition NewCloudRegistry (cloud : cloudprovider.Interface)
    (matchRE : string) (staticResources : api.NodeResources)
  : option Registry * option error :=
  match cloudFailure cloud matchRE staticResources with
  | Some err => (None, Some err)
  | None => (Some (CloudRegistry cloud matchRE staticResources), None)
  end.

(** Modelled from the spec: [minion.NewHealthyRegistry] is missing from
    the sources at hand.  It wraps its delegate and cannot fail. *)
Definition NewHealthyRegistry (delegate : Registry) (c : http.Client)
  : Registry :=
  HealthyRegistry delegate c.

(** Modelled from the spec: [minion.NewCachingRegistry] is missing from
    the sources at hand.  It wraps its delegate in a cache whose entries
    live for [ttl], or fails.  The caller looks at the error only, so
    the result is the registry or the error. *)
Definition NewCachingRegistry (delegate : Registry) (ttl : time.Duration)
    (st : Store) : Registry + error :=
  match cachingFailure delegate ttl st with
  | Some err => inr err
  | None => inl (CachingRegistry delegate ttl)
  end.
End constructors.
Arguments NewCachingRegistry {Store} cachingFailure delegate ttl st.

Record REST := NewREST { registry : Registry }.
End minion.

Module glog.
(** One call of [glog.Errorf]: the format string and its arguments. *)
Record Line := Errorf { format : string; args : list error }.
End glog.

(** The storage backend as the master sees it: the etcd registry's
    [CreateMinion], which may fail, and the listing of the node entries. *)
Class Backend (Store : Type) := {
  CreateMinion : etcd.Registry -> api.Minion -> Store -> Store * option error;
  ListMinions : etcd.Registry -> Store -> list api.Minion
}.

(** ** The configuration *)

Record Config := {
  Client : option client.Client;
  Cloud : option cloudprovider.Interface;
  EtcdHelper : tools.EtcdHelper;
  HealthCheckMinions : bool;
  Minions : list string;
  MinionCacheTTL : time.Duration;
  EventTTL : time.Duration;
  MinionRegexp : string;
  PodInfoGetter : client.PodInfoGetter;
  NodeResources : api.NodeResources
}.

(** ** The node registry *)

Section NodeRegistry.
Context {Store : Type} `{Backend Store}.
Variable cloudFailure :
  cloudprovider.Interface -> string -> api.NodeResources -> option error.
Variable cachingFailure :
  minion.Registry -> time.Duration -> Store -> option error.

(** What [makeMinionRegistry] reads and writes: the storage backend and
    the error log. *)
Record World := { backend : Store; log : list glog.Line }.

Definition errorf (fmt : string) (a : list error) (w : World) : World :=
  {| backend := backend w; log := log w ++ [glog.Errorf fmt a] |}.

Definition newMinion (c : Config) (minionID : string) : api.Minion :=
  {| api.TypeMeta_ := {| api.ID := minionID |};
     api.NodeResources_ := NodeResources c |}.

(** [for _, minionID := range c.Minions { minionRegistry.CreateMinion(...) }]:
    the error each call returns is dropped. *)
Fixpoint createMinions (r : etcd.Registry) (c : Config) (ids : list string)
    (st : Store) : Store :=
  match ids with
  | [] => st
  | minionID :: rest =>
      let '(st', _) := CreateMinion r (newMinion c minionID) st in
      createMinions r c rest st'
  end.

Definition makeMinionRegistry (c : Config) (w : World)
  : minion.Registry * World :=
  (* if c.Cloud != nil && len(c.MinionRegexp) > 0 *)
  let '(minionRegistry, w) :=
    match Cloud c with
    | Some cloud =>
        if (0 <? String.length (MinionRegexp c))%nat then
          let '(r, err) :=
            minion.NewCloudRegistry cloudFailure cloud (MinionRegexp c)
                                    (NodeResources c) in
          match err with
          | Some e =>
              (r, errorf "Failed to initalize cloud minion registry reverting to static registry (%#v)" [e] w)
          | None => (r, w)
          end
        else (None, w)
    | None => (None, w)
    end in
  (* if minionRegistry == nil *)
  let '(minionRegistry, w) :=
    match minionRegistry with
    | None =>
        let r := etcd.NewRegistry (EtcdHelper c) etcd.NilFactory in
        (minion.EtcdRegistry r,
         {| backend := createMinions r c (Minions c) (backend w);
            log := log w |})
    | Some r => (r, w)
    end in
  (* if c.HealthCheckMinions *)
  let minionRegistry :=
    if HealthCheckMinions c
    then minion.NewHealthyRegistry minionRegistry http.ZeroClient
    else minionRegistry in
  (* if c.MinionCacheTTL > 0 *)
  if (0 <? MinionCacheTTL c)%Z then
    match minion.NewCachingRegistry cachingFailure minionRegistry
                                    (MinionCacheTTL c) (backend w) with
    | inr _ =>
        (minionRegistry,
         errorf "Failed to initialize caching layer, ignoring cache." [] w)
    | inl cachingMinionRegistry => (cachingMinionRegistry, w)
    end
  else (minionRegistry, w).

End NodeRegistry.

(** ** The master *)

(** Modelled from the spec: [NewPodCache], of this package, is missing from
    the sources at hand.  The cache is constructed from a workload-info
    source and the workload registry: [NewPodCache(podInfoGetter,
    m.podRegistry)]. *)
Record PodCache := NewPodCache {
  containerInfo : client.PodInfoGetter;
  pods : etcd.Registry
}.

(** The request-handling adapters, one package each; an adapter is known
    by the registries and services its constructor [NewREST] is given. *)
Module pod.
Record RESTConfig := {
  CloudProvider : option cloudprovider.Interface;
  PodCache_ : PodCache;
  PodInfoGetter_ : client.PodInfoGetter;
  Registry : etcd.Registry;
  Minions_ : option client.Client
}.
Record REST := NewREST { config : RESTConfig }.
End pod.

Module controller.
Record REST := NewREST { registry : etcd.Registry; podLister : etcd.Registry }.
End controller.

Module service.
Record REST := NewREST {
  registry : etcd.Registry;
  cloud : option cloudprovider.Interface;
  machines : minion.Registry
}.
End service.

Module endpoint.
Record REST := NewREST { registry : etcd.Registry }.
End endpoint.

Module binding.
Record REST := NewREST { registry : etcd.Registry }.
End binding.

Module apiserver.
(** The values of the [apiserver.RESTStorage] interface the master
    stores: one adapter per package. *)
Inductive RESTStorage :=
| Pods (r : pod.REST)
| ReplicationControllers (r : controller.REST)
| Services (r : service.REST)
| Endpoints (r : endpoint.REST)
| Minions (r : minion.REST)
| Events (r : event.REST)
| Bindings (r : binding.REST).
End apiserver.

Module runtime.
(** Values of the interfaces [runtime.Codec] and [runtime.SelfLinker]:
    a codec is known by the API version it encodes, a self-linker by
    handle. *)
Record Codec := { codec_version : string }.
Record SelfLinker := { linker_id : nat }.
End runtime.

Module v1beta1.
Definition Codec : runtime.Codec := {| runtime.codec_version := "v1beta1" |}.
End v1beta1.

Module v1beta2.
Definition Codec : runtime.Codec := {| runtime.codec_version := "v1beta2" |}.
End v1beta2.

Module latest.
Definition SelfLinker : runtime.SelfLinker := {| runtime.linker_id := 0 |}.
End latest.

Module util.
(** The function values the master passes to [util.Forever]. *)
Inductive Func :=
| UpdateAllContainers (podCache : PodCache).

(** A call [util.Forever(f, period)]. *)
Record Call := Forever { f : Func; period : time.Duration }.

(** What a goroutine running [util.Forever] does to its surroundings: it
    runs its function, which ends normally or with an error, and it
    sleeps. *)
Variant taskE : Type -> Type :=
| Invoke (f : Func) : taskE (option error)
| Sleep (d : time.Duration) : taskE unit.

(** Modelled from the spec: [util.Forever] is missing from the sources at
    hand.  By the design document the function is invoked repeatedly, on
    a fixed interval, by an unbounded background task, and an error
    during a pass does not terminate the loop: the loop runs the
    function, disregards how it ended, sleeps for the period and starts
    over.  It never returns. *)
Definition loop (c : Call) : itree taskE void :=
  ITree.forever
    (ITree.bind (ITree.trigger (Invoke (f c)))
                (fun _ => ITree.trigger (Sleep (period c)))).
End util.

(** A Go map is a reference to a map object: the object lives on a heap
    and the variables hold its address. *)
Abbreviation loc := positive (only parsing).
Abbreviation storageMap := (gmap string apiserver.RESTStorage) (only parsing).

(** The part of the process [init] and the exporters act on: the map
    objects allocated so far and the goroutines started so far. *)
Record Process := {
  heap : gmap loc storageMap;
  goroutines : list util.Call
}.

Record Master := {
  podRegistry : etcd.Registry;
  controllerRegistry : etcd.Registry;
  serviceRegistry : etcd.Registry;
  endpointRegistry : etcd.Registry;
  minionRegistry : minion.Registry;
  bindingRegistry : etcd.Registry;
  eventRegistry : event.Registry;
  storage : option loc;
  client_ : option client.Client
}.

(** A map literal or [make(map...)]: a new map object at an address no
    object has yet. *)
Definition newMap (entries : storageMap) (p : Process) : loc * Process :=
  let l := fresh (dom (heap p)) in
  (l, {| heap := <[l := entries]> (heap p); goroutines := goroutines p |}).

(** [go f]. *)
Definition go (g : util.Call) (p : Process) : Process :=
  {| heap := heap p; goroutines := goroutines p ++ [g] |}.

(** Reading through a map variable; a [nil] map reads as empty. *)
Definition entriesOf (m : option loc) (p : Process) : storageMap :=
  match m with
  | Some l => default ∅ (heap p !! l)
  | None => ∅
  end.

(** [storage[k] = v] on the map object at [l]. *)
Definition mapStore (l : loc) (k : string) (v : apiserver.RESTStorage)
    (p : Process) : Process :=
  {| heap := alter (insert k v) l (heap p); goroutines := goroutines p |}.

(** [delete(storage, k)] on the map object at [l]. *)
Definition mapDelete (l : loc) (k : string) (p : Process) : Process :=
  {| heap := alter (delete k) l (heap p); goroutines := goroutines p |}.

Definition init (m : Master) (cloud : option cloudprovider.Interface)
    (podInfoGetter : client.PodInfoGetter) (p : Process) : Master * Process :=
  let podCache := NewPodCache podInfoGetter (podRegistry m) in
  let p := go (util.Forever (util.UpdateAllContainers podCache)
                            (time.Second * 30)%Z) p in
  let '(l, p) :=
    newMap
      (<["pods" := apiserver.Pods (pod.NewREST
            {| pod.CloudProvider := cloud;
               pod.PodCache_ := podCache;
               pod.PodInfoGetter_ := podInfoGetter;
               pod.Registry := podRegistry m;
               pod.Minions_ := client_ m |})]>
      (<["replicationControllers" := apiserver.ReplicationControllers
            (controller.NewREST (controllerRegistry m) (podRegistry m))]>
      (<["services" := apiserver.Services
            (service.NewREST (serviceRegistry m) cloud (minionRegistry m))]>
      (<["endpoints" := apiserver.Endpoints
            (endpoint.NewREST (endpointRegistry m))]>
      (<["minions" := apiserver.Minions (minion.NewREST (minionRegistry m))]>
      (<["events" := apiserver.Events (event.NewREST (eventRegistry m))]>
      (<["bindings" := apiserver.Bindings
            (binding.NewREST (bindingRegistry m))]> ∅))))))) p in
  ({| podRegistry := podRegistry m;
      controllerRegistry := controllerRegistry m;
      serviceRegistry := serviceRegistry m;
      endpointRegistry := endpointRegistry m;
      minionRegistry := minionRegistry m;
      bindingRegistry := bindingRegistry m;
      eventRegistry := eventRegistry m;
      storage := Some l;
      client_ := client_ m |}, p).

(** [storage := make(map...); for k, v := range m.storage { storage[k] = v }]:
    the entries of the master's map are stored one by one into the new
    map object. *)
Definition copyStorage (m : Master) (p : Process) : loc * Process :=
  let '(storage', p) := newMap ∅ p in
  (storage',
   map_fold (fun k v p => mapStore storage' k v p) p (entriesOf (storage m) p)).

Definition API_v1beta1 (m : Master) (p : Process)
  : (loc * runtime.Codec * string * runtime.SelfLinker) * Process :=
  let '(storage', p) := copyStorage m p in
  ((storage', v1beta1.Codec, "/api/v1beta1", latest.SelfLinker), p).

Definition API_v1beta2 (m : Master) (p : Process)
  : (loc * runtime.Codec * string * runtime.SelfLinker) * Process :=
  let '(storage', p) := copyStorage m p in
  ((storage', v1beta2.Codec, "/api/v1beta1", latest.SelfLinker), p).

Section Assembly.
Context {Store : Type} `{Backend Store}.
Variable cloudFailure :
  cloudprovider.Interface -> string -> api.NodeResources -> option error.
Variable cachingFailure :
  minion.Registry -> time.Duration -> Store -> option error.
(** What the implementation makes of a [uint64] conversion out of range. *)
Variable outOfRange : float64.t -> Z.

Definition New (c : Config) (w : World) (p : Process)
  : Master * World * Process :=
  let '(minionRegistry, w) :=
    makeMinionRegistry cloudFailure cachingFailure c w in
  let serviceRegistry := etcd.NewRegistry (EtcdHelper c) etcd.NilFactory in
  let manifestFactory := etcd.BasicManifestFactory serviceRegistry in
  let m :=
    {| podRegistry := etcd.NewRegistry (EtcdHelper c) manifestFactory;
       controllerRegistry := etcd.NewRegistry (EtcdHelper c) etcd.NilFactory;
       serviceRegistry := serviceRegistry;
       endpointRegistry := etcd.NewRegistry (EtcdHelper c) etcd.NilFactory;
       bindingRegistry := etcd.NewRegistry (EtcdHelper c) manifestFactory;
       eventRegistry :=
         event.NewEtcdRegistry (EtcdHelper c)
           (float64.to_uint64 outOfRange (time.Seconds (EventTTL c)));
       minionRegistry := minionRegistry;
       storage := None;
       client_ := Client c |} in
  let '(m, p) := init m (Cloud c) (PodInfoGetter c) p in
  (m, w, p).
End Assembly.

(** ** Reading a registry chain *)

(** The registry at the bottom of a chain of decorators. *)
Fixpoint base (r : minion.Registry) : minion.Registry :=
  match r with
  | minion.HealthyRegistry d _ | minion.CachingRegistry d _ => base d
  | _ => r
  end.

(** No caching layer anywhere in the chain. *)
Fixpoint cacheFree (r : minion.Registry) : bool :=
  match r with
  | minion.CachingRegistry _ _ => false
  | minion.HealthyRegistry d _ => cacheFree d
  | _ => true
  end.

(** A caching layer, if there is one, is the outermost layer. *)
Definition cachingOutermost (r : minion.Registry) : bool :=
  match r with
  | minion.CachingRegistry d _ => cacheFree d
  | _ => cacheFree r
  end.

(** No health-checking layer wraps a caching layer. *)
Fixpoint healthyBelowCaching (r : minion.Registry) : bool :=
  match r with
  | minion.HealthyRegistry d _ => cacheFree d && healthyBelowCaching d
  | minion.CachingRegistry d _ => healthyBelowCaching d
  | _ => true
  end.

(** The static registry of a configuration, and the configuration with
    the cache switched off, whose registry is the chain before caching. *)
Definition staticRegistry (c : Config) : etcd.Registry :=
  etcd.NewRegistry (EtcdHelper c) etcd.NilFactory.

Definition withoutCache (c : Config) : Config :=
  {| Client := Client c; Cloud := Cloud c; EtcdHelper := EtcdHelper c;
     HealthCheckMinions := HealthCheckMinions c; Minions := Minions c;
     MinionCacheTTL := 0%Z; EventTTL := EventTTL c;
     MinionRegexp := MinionRegexp c; PodInfoGetter := PodInfoGetter c;
     NodeResources := NodeResources c |}.

(** The two lines [makeMinionRegistry] can log. *)
Definition cloudLine (e : error) : glog.Line :=
  glog.Errorf "Failed to initalize cloud minion registry reverting to static registry (%#v)" [e].
Definition cacheLine : glog.Line :=
  glog.Errorf "Failed to initialize caching layer, ignoring cache." [].

(** The steps of [makeMinionRegistry], one by one. *)
Section Steps.
Context {Store : Type} `{Backend Store}.
Variable cloudFailure :
  cloudprovider.Interface -> string -> api.NodeResources -> option error.
Variable cachingFailure :
  minion.Registry -> time.Duration -> Store -> option error.

(** The health-checking step of the builder. *)
Definition healthLayer (c : Config) (r : minion.Registry) : minion.Registry :=
  if HealthCheckMinions c then minion.HealthyRegistry r http.ZeroClient else r.

(** The registry the first two steps settle on, and the world they
    leave: the cloud registry, or the static one with its nodes created. *)
Definition baseStep (c : Config) (w : World) : minion.Registry * World :=
  match Cloud c with
  | Some cloud =>
      if (0 <? String.length (MinionRegexp c))%nat then
        match cloudFailure cloud (MinionRegexp c) (NodeResources c) with
        | Some e =>
            (minion.EtcdRegistry (staticRegistry c),
             {| backend := createMinions (staticRegistry c) c (Minions c) (backend w);
                log := log w ++ [cloudLine e] |})
        | None =>
            (minion.CloudRegistry cloud (MinionRegexp c) (NodeResources c), w)
        end
      else
        (minion.EtcdRegistry (staticRegistry c),
         {| backend := createMinions (staticRegistry c) c (Minions c) (backend w);
            log := log w |})
  | None =>
      (minion.EtcdRegistry (staticRegistry c),
       {| backend := createMinions (staticRegistry c) c (Minions c) (backend w);
          log := log w |})
  end.

(** The caching step of the builder, on the outcome of the steps before. *)
Definition cacheStep (c : Config) (rw : minion.Registry * World)
  : minion.Registry * World :=
  if (0 <? MinionCacheTTL c)%Z then
    match cachingFailure (fst rw) (MinionCacheTTL c) (backend (snd rw)) with
    | Some _ =>
        (fst rw, {| backend := backend (snd rw); log := log (snd rw) ++ [cacheLine] |})
    | None => (minion.CachingRegistry (fst rw) (MinionCacheTTL c), snd rw)
    end
  else rw.
End Steps.

(** Whether [makeMinionRegistry] takes the static path: no cloud, no
    pattern, or a cloud registry that could not be built. *)
Definition staticPath
    (cloudFailure : cloudprovider.Interface -> string -> api.NodeResources ->
                    option error) (c : Config) : bool :=
  match Cloud c with
  | Some cloud =>
      if (0 <? String.length (MinionRegexp c))%nat
      then bool_decide (is_Some (cloudFailure cloud (MinionRegexp c) (NodeResources c)))
      else true
  | None => true
  end.


(** The errors the creation loop of [makeMinionRegistry] receives and
    drops, in order. *)
Fixpoint creationErrors `{Backend Store} (r : etcd.Registry) (c : Config)
    (ids : list string) (st : Store) : list error :=
  match ids with
  | [] => []
  | minionID :: rest =>
      let '(st', err) := CreateMinion r (newMinion c minionID) st in
      match err with
      | Some e => e :: creationErrors r c rest st'
      | None => creationErrors r c rest st'
      end
  end.

(** ** Storage backends to run the master against *)

(** A store keyed by node identifier: creating an identifier that is
    there already fails. *)
Definition hasID (id : string) (st : list api.Minion) : bool :=
  existsb (fun m => String.eqb (api.ID (api.TypeMeta_ m)) id) st.

#[local] Instance keyedStore : Backend (list api.Minion) := {|
  CreateMinion _ m st :=
    if hasID (api.ID (api.TypeMeta_ m)) st
    then (st, Some "already exists")
    else (st ++ [m], None);
  ListMinions _ st := st
|}.

(** A store that cannot be reached: every creation fails. *)
Definition unreachableStore : Backend (list api.Minion) := {|
  CreateMinion _ m st := (st, Some "unreachable");
  ListMinions _ st := st
|}.

(** A backend that also records the calls it receives and what it
    answered. *)
Definition Recorded (Store : Type) : Type :=
  (Store * list (api.Minion * option error))%type.

Definition recording `(B : Backend Store) : Backend (Recorded Store) := {|
  CreateMinion r m st :=
    let '(st', err) := CreateMinion r m (fst st) in
    ((st', snd st ++ [(m, err)]), err);
  ListMinions r st := ListMinions r (fst st)
|}.

(** The caching oracle seen through a recording backend. *)
Definition onRecorded {Store : Type}
    (cachingFailure : minion.Registry -> time.Duration -> Store -> option error)
  : minion.Registry -> time.Duration -> Recorded Store -> option error :=
  fun r ttl st => cachingFailure r ttl (fst st).

(** The builder returns a registry and nothing else, so an error of its
    own can reach the caller through the log only. *)
Definition surfaced {Store : Type} (before after : @World Store) : Prop :=
  log after <> log before.

Definition neverFails {A B C : Type} : A -> B -> C -> option error :=
  fun _ _ _ => None.
Definition alwaysFails {A B C : Type} (e : error) : A -> B -> C -> option error :=
  fun _ _ _ => Some e.

Definition emptyWorld {Store : Type} (st : Store) : World :=
  {| backend := st; log := [] |}.
Definition emptyProcess : Process := {| heap := ∅; goroutines := [] |}.

Definition someCloud : cloudprovider.Interface := {| cloudprovider.cloud_id := 1 |}.

(** The configurations of the scenarios of the design document. *)
Definition twoNodes : Config :=
  {| Client := Some {| client.client_id := 0 |};
     Cloud := None;
     EtcdHelper := {| tools.helper_id := 0 |};
     HealthCheckMinions := false;
     Minions := ["n1"; "n2"];
     MinionCacheTTL := 0%Z;
     EventTTL := (48 * 3600 * time.Second)%Z;
     MinionRegexp := "";
     PodInfoGetter := {| client.getter_id := 0 |};
     NodeResources := {| api.Capacity := [("cpu", 1000%Z); ("memory", 3221225472%Z)] |} |}.

Definition withEventTTL (c : Config) (ttl : time.Duration) : Config :=
  {| Client := Client c; Cloud := Cloud c; EtcdHelper := EtcdHelper c;
     HealthCheckMinions := HealthCheckMinions c; Minions := Minions c;
     MinionCacheTTL := MinionCacheTTL c; EventTTL := ttl;
     MinionRegexp := MinionRegexp c; PodInfoGetter := PodInfoGetter c;
     NodeResources := NodeResources c |}.

Definition twoNodesWith (cloud : option cloudprovider.Interface)
    (pattern : string) (healthCheck : bool) (cacheTTL : time.Duration) : Config :=
  {| Client := Client twoNodes; Cloud := cloud; EtcdHelper := EtcdHelper twoNodes;
     HealthCheckMinions := healthCheck; Minions := Minions twoNodes;
     MinionCacheTTL := cacheTTL; EventTTL := EventTTL twoNodes;
     MinionRegexp := pattern; PodInfoGetter := PodInfoGetter twoNodes;
     NodeResources := NodeResources twoNodes |}.

(** ** What a caller of the master can do *)

(** The API versions the master exports. *)
Inductive Version := V1beta1 | V1beta2.

Definition export (v : Version) (m : Master) (p : Process)
  : (loc * runtime.Codec * string * runtime.SelfLinker) * Process :=
  match v with
  | V1beta1 => API_v1beta1 m p
  | V1beta2 => API_v1beta2 m p
  end.

(** A caller holds the maps the exporters returned to it, in order.  The
    field [storage] of the master is not exported, so the maps a caller
    stores into or deletes from are those it was returned. *)
Record Caller := { proc : Process; returned : list loc }.

Inductive CallerStep :=
| Call (v : Version)
| StoreAt (i : nat) (k : string) (h : apiserver.RESTStorage)
| DeleteAt (i : nat) (k : string).

Definition step (m : Master) (st : Caller) (s : CallerStep) : Caller :=
  match s with
  | Call v =>
      let '((l, _, _, _), p) := export v m (proc st) in
      {| proc := p; returned := returned st ++ [l] |}
  | StoreAt i k h =>
      match returned st !! i with
      | Some l => {| proc := mapStore l k h (proc st); returned := returned st |}
      | None => st
      end
  | DeleteAt i k =>
      match returned st !! i with
      | Some l => {| proc := mapDelete l k (proc st); returned := returned st |}
      | None => st
      end
  end.

Definition run (m : Master) (steps : list CallerStep) (st : Caller) : Caller :=
  fold_left (step m) steps st.

(** The address an exporter returns. *)
Definition exported (v : Version) (m : Master) (p : Process) : loc :=
  fst (fst (fst (fst (export v m p)))).

(** The invariant of a caller's state: the master's map object holds [M],
    no map the caller was returned is the master's, and every such map is
    allocated. *)
Definition callerInv (l0 : loc) (M : storageMap) (st : Caller) : Prop :=
  heap (proc st) !! l0 = Some M /\
  (l0 ∉ returned st) /\
  Forall (fun l => is_Some (heap (proc st) !! l)) (returned st).

(** A caller that has made no call yet. *)
Definition freshCaller (p : Process) : Caller := {| proc := p; returned := [] |}.

(** ** Reading a background task *)

(** One cycle of a task that runs [f] every [d]: the task invokes [f];
    however the invocation ends, it sleeps for [d]; and then it is where
    [r] says. *)
Inductive cycleF (f : util.Func) (d : time.Duration)
    (r : itree util.taskE void -> Prop) : itree' util.taskE void -> Prop :=
| cycle_pass k :
    (forall outcome, exists k',
        observe (k outcome) = VisF (util.Sleep d) k' /\
        exists t, observe (k' tt) = TauF t /\ r t) ->
    cycleF f d r (VisF (util.Invoke f) k).

Definition cycle (f : util.Func) (d : time.Duration)
    (r : itree util.taskE void -> Prop) (t : itree util.taskE void) : Prop :=
  cycleF f d r (observe t).

(** A task is perpetual when it goes through such cycles without end. *)
Definition perpetual (f : util.Func) (d : time.Duration)
    (t : itree util.taskE void) : Prop :=
  paco1 (cycle f d) bot1 t.

(** The first [n] cycles of a task, as the invocations and sleeps it
    makes when its invocations end as [outcomes] tells; the reading stops
    where the task does something else. *)
Fixpoint cycles (n : nat) (outcomes : nat -> option error)
    (t : itree util.taskE void) : list (util.Func * time.Duration) :=
  match n with
  | O => []
  | S n' =>
      match observe t with
      | VisF (util.Invoke f) k =>
          match observe (k (outcomes n')) with
          | VisF (util.Sleep d) k' =>
              match observe (k' tt) with
              | TauF t' => (f, d) :: cycles n' outcomes t'
              | _ => []
              end
          | _ => []
          end
      | _ => []
      end
  end.

(** The seven resource kinds. *)
Definition resourceKinds : gset string :=
  {[ "pods"; "replicationControllers"; "services"; "endpoints"; "minions";
     "events"; "bindings" ]}.

(** ** Further readings of a chain *)

(** The decorators of a chain, outermost first. *)
Inductive Layer :=
| Healthy (client : http.Client)
| Cached (ttl : time.Duration).

Fixpoint layers (r : minion.Registry) : list Layer :=
  match r with
  | minion.HealthyRegistry d cl => Healthy cl :: layers d
  | minion.CachingRegistry d ttl => Cached ttl :: layers d
  | _ => []
  end.

(** The chain a configuration asks for: the one [makeMinionRegistry]
    returns when no constructor fails. *)
Definition requestedBase (c : Config) : minion.Registry :=
  match Cloud c with
  | Some cloud =>
      if (0 <? String.length (MinionRegexp c))%nat
      then minion.CloudRegistry cloud (MinionRegexp c) (NodeResources c)
      else minion.EtcdRegistry (staticRegistry c)
  | None => minion.EtcdRegistry (staticRegistry c)
  end.

Definition requestedChain (c : Config) : minion.Registry :=
  if (0 <? MinionCacheTTL c)%Z
  then minion.CachingRegistry (healthLayer c (requestedBase c)) (MinionCacheTTL c)
  else healthLayer c (requestedBase c).


(** ** Further readings of a caller's state *)

Definition isCall (s : CallerStep) : bool :=
  match s with Call _ => true | _ => false end.

(** The number of exporter calls among the steps of a caller. *)
Definition callsIn (steps : list CallerStep) : nat :=
  length (List.filter isCall steps).

(** What a caller sees: the entries of the maps it was returned, in the
    order of the calls. *)
Definition views (st : Caller) : list storageMap :=
  (fun l => entriesOf (Some l) (proc st)) <$> returned st.

(** The steps of a caller on maps held by value instead of by reference:
    a call yields a map with the entries [M]; a store or a deletion
    changes the map at that index, when there is one, and no other. *)
Definition valueStep (M : storageMap) (vs : list storageMap) (s : CallerStep)
  : list storageMap :=
  match s with
  | Call _ => vs ++ [M]
  | StoreAt i k h => alter (insert k h) i vs
  | DeleteAt i k => alter (delete k) i vs
  end.

(** The maps a caller was returned are distinct objects, allocated
    after the caller started. *)
Definition allocInv (p0 : Process) (st : Caller) : Prop :=
  NoDup (returned st) /\
  dom (heap (proc st)) = dom (heap p0) ∪ list_to_set (returned st) /\
  (forall l, l ∈ returned st -> l ∉ dom (heap p0)).

(** ** The etcd helper *)

(** Values of the interfaces [tools.EtcdGetSet] and
    [runtime.ResourceVersioner], by handle. *)
Record EtcdGetSet := { etcd_id : nat }.
Record ResourceVersioner := { versioner_id : nat }.

Module meta.
(** [meta.VersionInterfaces], as far as [NewEtcdHelper] reads it; a field
    of interface type holds a value or [nil]. *)
Record VersionInterfaces := {
  Codec : option runtime.Codec;
  ResourceVersioner_ : option ResourceVersioner
}.
End meta.

Module helper.
(** [tools.RuntimeVersionAdapter{versioner}]. *)
Record RuntimeVersionAdapter := { versioner : option ResourceVersioner }.

(** The fields of a [tools.EtcdHelper], which the configuration holds by
    handle: [tools.EtcdHelper{Client, Codec, ResourceVersioner}]. *)
Record EtcdHelper := {
  Client : option EtcdGetSet;
  Codec : option runtime.Codec;
  ResourceVersioner_ : RuntimeVersionAdapter
}.

(** The zero value of the struct. *)
Definition zero : EtcdHelper :=
  {| Client := None; Codec := None;
     ResourceVersioner_ := {| versioner := None |} |}.
End helper.

Section EtcdHelperConstruction.
(** [latest.Version] and [latest.InterfacesFor] are not part of this file
    of the source: the version is some string, and which versions have
    interfaces is left to the environment. *)
Variable latestVersion : string.
Variable InterfacesFor : string -> meta.VersionInterfaces + error.

Definition NewEtcdHelper (client : option EtcdGetSet) (version : string)
  : helper.EtcdHelper * option error :=
  let helper := helper.zero in
  (* if version == "" *)
  let version := if String.eqb version "" then latestVersion else version in
  match InterfacesFor version with
  | inr err => (helper, Some err)
  | inl versionInterfaces =>
      ({| helper.Client := client;
          helper.Codec := meta.Codec versionInterfaces;
          helper.ResourceVersioner_ :=
            {| helper.versioner := meta.ResourceVersioner_ versionInterfaces |} |},
       None)
  end.
End EtcdHelperConstruction.

(** A master as [New] has it before [init] runs, for the two-node
    configuration: the storage map is still [nil]. *)
Definition beforeInit : Master :=
  {| podRegistry :=
       etcd.NewRegistry (EtcdHelper twoNodes)
         (etcd.BasicManifestFactory (staticRegistry twoNodes));
     controllerRegistry := staticRegistry twoNodes;
     serviceRegistry := staticRegistry twoNodes;
     endpointRegistry := staticRegistry twoNodes;
     minionRegistry := minion.EtcdRegistry (staticRegistry twoNodes);
     bindingRegistry :=
       etcd.NewRegistry (EtcdHelper twoNodes)
         (etcd.BasicManifestFactory (staticRegistry twoNodes));
     eventRegistry := event.NewEtcdRegistry (EtcdHelper twoNodes) 172800%Z;
     storage := None;
     client_ := Client twoNodes |}.

(** * Properties *)

(** ** The node registry builder *)

Section NodeRegistryFacts.
Context {Store : Type} `{Backend Store}.
Variable cloudFailure :
  cloudprovider.Interface -> string -> api.NodeResources -> option error.
Variable cachingFailure :
  minion.Registry -> time.Duration -> Store -> option error.

Lemma base_healthLayer c r : base (healthLayer c r) = base r.
Proof. unfold healthLayer. by destruct (HealthCheckMinions c). Qed.

Lemma cacheFree_healthLayer c r : cacheFree (healthLayer c r) = cacheFree r.
Proof. unfold healthLayer. by destruct (HealthCheckMinions c). Qed.

Lemma healthyBelowCaching_healthLayer c r :
  cacheFree r = true -> healthyBelowCaching r = true ->
  healthyBelowCaching (healthLayer c r) = true.
Proof.
  unfold healthLayer. destruct (HealthCheckMinions c); simpl; [|done].
  by intros -> ->.
Qed.

(** The builder is its four steps in sequence. *)
Lemma makeMinionRegistry_steps c w :
  makeMinionRegistry cloudFailure cachingFailure c w =
  cacheStep cachingFailure c
    (healthLayer c (fst (baseStep cloudFailure c w)), snd (baseStep cloudFailure c w)).
Proof.
  unfold makeMinionRegistry, baseStep, cacheStep, healthLayer,
    minion.NewCloudRegistry, minion.NewCachingRegistry,
    minion.NewHealthyRegistry, errorf, staticRegistry.
  destruct (Cloud c) as [cloud|]; simpl.
  - destruct (0 <? String.length (MinionRegexp c))%nat; simpl.
    + destruct (cloudFailure cloud (MinionRegexp c) (NodeResources c)); simpl;
        destruct (0 <? MinionCacheTTL c)%Z; simpl; try done;
        by destruct (cachingFailure _ _ _).
    + destruct (0 <? MinionCacheTTL c)%Z; simpl; try done;
        by destruct (cachingFailure _ _ _).
  - destruct (0 <? MinionCacheTTL c)%Z; simpl; try done;
      by destruct (cachingFailure _ _ _).
Qed.

Lemma baseStep_base c w :
  base (fst (baseStep cloudFailure c w)) = fst (baseStep cloudFailure c w).
Proof.
  unfold baseStep. destruct (Cloud c); [|done].
  destruct (0 <? _)%nat; [|done]. by destruct (cloudFailure _ _ _).
Qed.

Lemma baseStep_cacheFree c w : cacheFree (fst (baseStep cloudFailure c w)) = true.
Proof.
  unfold baseStep. destruct (Cloud c); [|done].
  destruct (0 <? _)%nat; [|done]. by destruct (cloudFailure _ _ _).
Qed.

Lemma baseStep_healthyBelowCaching c w :
  healthyBelowCaching (fst (baseStep cloudFailure c w)) = true.
Proof.
  unfold baseStep. destruct (Cloud c); [|done].
  destruct (0 <? _)%nat; [|done]. by destruct (cloudFailure _ _ _).
Qed.

Lemma baseStep_static c w :
  staticPath cloudFailure c = true ->
  fst (baseStep cloudFailure c w) = minion.EtcdRegistry (staticRegistry c) /\
  backend (snd (baseStep cloudFailure c w)) =
    createMinions (staticRegistry c) c (Minions c) (backend w).
Proof.
  unfold staticPath, baseStep. destruct (Cloud c); [|done].
  destruct (0 <? _)%nat; [|done].
  destruct (cloudFailure _ _ _); [done|].
  intros Hs. apply bool_decide_eq_true in Hs. by destruct Hs.
Qed.

Lemma cacheStep_base c rw :
  base (fst (cacheStep cachingFailure c rw)) = base (fst rw).
Proof.
  unfold cacheStep. destruct (0 <? _)%Z; [|done].
  by destruct (cachingFailure _ _ _).
Qed.

Lemma cacheStep_backend c rw :
  backend (snd (cacheStep cachingFailure c rw)) = backend (snd rw).
Proof.
  unfold cacheStep. destruct (0 <? _)%Z; [|done].
  by destruct (cachingFailure _ _ _).
Qed.

(** C2.  Whatever the configuration and whatever fails on the way, the
    registry the builder returns has its caching layer, if any, as the
    outermost layer, and no health-checking layer around a caching layer:
    health checking is applied inside the cache. *)
Theorem decoration_order (c : Config) (w : World) :
  cachingOutermost (fst (makeMinionRegistry cloudFailure cachingFailure c w)) = true /\
  healthyBelowCaching (fst (makeMinionRegistry cloudFailure cachingFailure c w)) = true.
Proof.
  rewrite makeMinionRegistry_steps.
  pose proof (baseStep_cacheFree c w) as Hfree.
  pose proof (baseStep_healthyBelowCaching c w) as Hbelow.
  pose proof (cacheFree_healthLayer c (fst (baseStep cloudFailure c w))) as Hh.
  pose proof (healthyBelowCaching_healthLayer c _ Hfree Hbelow) as Hhb.
  rewrite Hfree in Hh.
  unfold cacheStep; simpl.
  destruct (0 <? MinionCacheTTL c)%Z; simpl.
  - destruct (cachingFailure _ _ _); simpl; split; try done.
    all: unfold cachingOutermost; rewrite ?Hh;
      by destruct (healthLayer c (fst (baseStep cloudFailure c w))).
  - split; [|done]. unfold cachingOutermost. rewrite ?Hh.
    by destruct (healthLayer c (fst (baseStep cloudFailure c w))).
Qed.

(** The creation loop reads the node resources of the configuration
    and nothing else of it. *)
Lemma createMinions_resources r c c' ids (st : Store) :
  NodeResources c = NodeResources c' ->
  createMinions r c ids st = createMinions r c' ids st.
Proof.
  intros Hres. revert st. induction ids as [|minionID rest IH]; intros st; simpl.
  - done.
  - unfold newMinion. rewrite Hres.
    destruct (CreateMinion r _ st) as [st' err]. apply IH.
Qed.

Lemma baseStep_withoutCache c w :
  baseStep cloudFailure (withoutCache c) w = baseStep cloudFailure c w.
Proof.
  unfold baseStep, staticRegistry; simpl.
  by rewrite (createMinions_resources _ (withoutCache c) c).
Qed.

Lemma makeMinionRegistry_withoutCache c w :
  makeMinionRegistry cloudFailure cachingFailure (withoutCache c) w =
  (healthLayer c (fst (baseStep cloudFailure c w)), snd (baseStep cloudFailure c w)).
Proof.
  rewrite makeMinionRegistry_steps, baseStep_withoutCache.
  unfold cacheStep, healthLayer. by simpl.
Qed.

(** C5.  With a node-cache interval above zero, the builder either
    returns the chain of the earlier steps unchanged, when the caching
    registry cannot be built (one line is logged, the backend is as the
    earlier steps left it), or wraps that chain in a caching layer whose
    time-to-live is the configured interval. *)
Theorem caching_step (c : Config) (w : World) :
  (0 < MinionCacheTTL c)%Z ->
  let pre := makeMinionRegistry cloudFailure cachingFailure (withoutCache c) w in
  let post := makeMinionRegistry cloudFailure cachingFailure c w in
  match cachingFailure (fst pre) (MinionCacheTTL c) (backend (snd pre)) with
  | Some _ =>
      fst post = fst pre /\
      backend (snd post) = backend (snd pre) /\
      log (snd post) = log (snd pre) ++ [cacheLine]
  | None =>
      post = (minion.CachingRegistry (fst pre) (MinionCacheTTL c), snd pre)
  end.
Proof.
  intros Httl pre post. subst pre post.
  rewrite makeMinionRegistry_withoutCache, makeMinionRegistry_steps.
  apply Z.ltb_lt in Httl.
  unfold cacheStep. rewrite Httl. simpl.
  by destruct (cachingFailure _ _ _).
Qed.

(** The creation loop against a recording backend: the store evolves as
    without the recording, and the calls recorded are one per
    identifier, in order, whatever each call returned. *)
Lemma createMinions_recording r c ids (st : Store) tr :
  fst (createMinions (H:=recording H) r c ids (st, tr)) = createMinions r c ids st /\
  map fst (snd (createMinions (H:=recording H) r c ids (st, tr))) =
    map fst tr ++ map (newMinion c) ids.
Proof.
  revert st tr. induction ids as [|minionID rest IH]; intros st tr; simpl.
  - by rewrite app_nil_r.
  - destruct (CreateMinion r (newMinion c minionID) st) as [st' err] eqn:Hcall.
    simpl. destruct (IH st' (tr ++ [(newMinion c minionID, err)])) as [IH1 IH2].
    split; [done|].
    rewrite IH2, map_app. simpl. by rewrite <- app_assoc.
Qed.


End NodeRegistryFacts.

Section StaticPath.
Context {Store : Type} `{Backend Store}.
Variable cloudFailure :
  cloudprovider.Interface -> string -> api.NodeResources -> option error.
Variable cachingFailure :
  minion.Registry -> time.Duration -> Store -> option error.

(** [New] hands the registry and the world of [makeMinionRegistry] on. *)
Lemma New_minionRegistry (outOfRange : float64.t -> Z) (c : Config) (w : World)
    (p : Process) :
  minionRegistry (fst (fst (New cloudFailure cachingFailure outOfRange c w p))) =
    fst (makeMinionRegistry cloudFailure cachingFailure c w) /\
  snd (fst (New cloudFailure cachingFailure outOfRange c w p)) =
    snd (makeMinionRegistry cloudFailure cachingFailure c w).
Proof.
  unfold New. destruct (makeMinionRegistry _ _ c w) as [r w'].
  unfold init. by destruct (newMap _ _).
Qed.

(** C1, as the code has it.  On the static path the errors of the
    per-node creations are dropped: every explicit node identifier is
    submitted to the backend once, in order, whatever the earlier
    creations returned; the builder returns the chain over the static
    registry; the only lines it logs are the line of a failed cloud
    registry and the line of a failed cache; and [New] completes with
    that registry in the master. *)
Theorem creation_errors_dropped (outOfRange : float64.t -> Z) (c : Config)
    (w : World) (p : Process) :
  staticPath cloudFailure c = true ->
  map fst (snd (backend (snd
    (makeMinionRegistry (H:=recording H) cloudFailure (onRecorded cachingFailure) c
       {| backend := (backend w, []); log := log w |})))) =
    map (newMinion c) (Minions c) /\
  base (fst (makeMinionRegistry cloudFailure cachingFailure c w)) =
    minion.EtcdRegistry (etcd.NewRegistry (EtcdHelper c) etcd.NilFactory) /\
  (exists lines,
    log (snd (makeMinionRegistry cloudFailure cachingFailure c w)) = log w ++ lines /\
    Forall (fun l => (exists e, l = cloudLine e) \/ l = cacheLine) lines) /\
  minionRegistry (fst (fst (New cloudFailure cachingFailure outOfRange c w p))) =
    fst (makeMinionRegistry cloudFailure cachingFailure c w).
Proof.
  intros Hstatic. split; [|split; [|split; [|apply New_minionRegistry]]].
  - rewrite makeMinionRegistry_steps, cacheStep_backend; simpl.
    destruct (baseStep_static (H:=recording H) cloudFailure c
                {| backend := (backend w, []); log := log w |} Hstatic) as [_ ->].
    simpl. by destruct (createMinions_recording (staticRegistry c) c (Minions c)
                          (backend w) []) as [_ ->].
  - rewrite makeMinionRegistry_steps, cacheStep_base; simpl.
    rewrite base_healthLayer.
    by destruct (baseStep_static cloudFailure c w Hstatic) as [-> _].
  - rewrite makeMinionRegistry_steps.
    assert (exists l1, log (snd (baseStep cloudFailure c w)) = log w ++ l1 /\
              Forall (fun l => (exists e, l = cloudLine e) \/ l = cacheLine) l1)
      as (l1 & Hl1 & Hf1).
    { unfold baseStep. destruct (Cloud c).
      - destruct (0 <? _)%nat.
        + destruct (cloudFailure _ _ _) as [e|]; simpl.
          * exists [cloudLine e]. split; [done|].
            constructor; [left; by exists e | constructor].
          * exists []. by rewrite app_nil_r.
        + exists []. simpl. by rewrite app_nil_r.
      - exists []. simpl. by rewrite app_nil_r. }
    unfold cacheStep; simpl. destruct (0 <? MinionCacheTTL c)%Z; simpl.
    + destruct (cachingFailure _ _ _); simpl.
      * exists (l1 ++ [cacheLine]). rewrite Hl1, <- app_assoc. split; [done|].
        apply Forall_app. split; [done|]. constructor; [by right | constructor].
      * by exists l1.
    + by exists l1.
Qed.

(** C4.  With a cloud integration and a non-empty pattern, a cloud
    registry that cannot be built is not fatal: the cause is logged, and
    the builder goes on with the static registry bound to the storage
    backend and populates it from the explicit node identifiers: every
    identifier is submitted to the backend as a node with the configured
    resources, once and in order, and the backend the builder leaves is
    the outcome of these creations. *)
Theorem cloud_failure_falls_back (c : Config) (w : World)
    (cloud : cloudprovider.Interface) (e : error) :
  Cloud c = Some cloud ->
  (0 < String.length (MinionRegexp c))%nat ->
  cloudFailure cloud (MinionRegexp c) (NodeResources c) = Some e ->
  base (fst (makeMinionRegistry cloudFailure cachingFailure c w)) =
    minion.EtcdRegistry (etcd.NewRegistry (EtcdHelper c) etcd.NilFactory) /\
  (let recorded :=
     backend (snd
       (makeMinionRegistry (H:=recording H) cloudFailure (onRecorded cachingFailure) c
          {| backend := (backend w, []); log := log w |})) in
   map fst (snd recorded) =
     map (fun minionID =>
            {| api.TypeMeta_ := {| api.ID := minionID |};
               api.NodeResources_ := NodeResources c |}) (Minions c) /\
   fst recorded =
     backend (snd (makeMinionRegistry cloudFailure cachingFailure c w))) /\
  backend (snd (makeMinionRegistry cloudFailure cachingFailure c w)) =
    createMinions (etcd.NewRegistry (EtcdHelper c) etcd.NilFactory) c
                  (Minions c) (backend w) /\
  exists rest,
    log (snd (makeMinionRegistry cloudFailure cachingFailure c w)) =
    log w ++ cloudLine e :: rest.
Proof.
  intros Hcloud Hlen Hfail.
  assert (staticPath cloudFailure c = true) as Hstatic.
  { unfold staticPath. rewrite Hcloud, Hfail.
    apply Nat.ltb_lt in Hlen. rewrite Hlen. by apply bool_decide_eq_true. }
  destruct (baseStep_static cloudFailure c w Hstatic) as [Hbase Hback].
  assert (backend (snd (makeMinionRegistry cloudFailure cachingFailure c w)) =
          createMinions (staticRegistry c) c (Minions c) (backend w)) as Hplain.
  { rewrite makeMinionRegistry_steps, cacheStep_backend; simpl. exact Hback. }
  split; [|split; [|split]].
  - rewrite makeMinionRegistry_steps, cacheStep_base; simpl.
    by rewrite base_healthLayer, Hbase.
  - cbn zeta. rewrite Hplain.
    rewrite makeMinionRegistry_steps, cacheStep_backend; simpl.
    destruct (baseStep_static (H:=recording H) cloudFailure c
                {| backend := (backend w, []); log := log w |} Hstatic) as [_ ->].
    simpl.
    by destruct (createMinions_recording (staticRegistry c) c (Minions c)
                   (backend w) []) as [-> ->].
  - exact Hplain.
  - rewrite makeMinionRegistry_steps.
    apply Nat.ltb_lt in Hlen.
    unfold baseStep, cacheStep. rewrite Hcloud, Hlen, Hfail; simpl.
    destruct (0 <? MinionCacheTTL c)%Z; simpl.
    + destruct (cachingFailure _ _ _); simpl.
      * exists [cacheLine]. by rewrite <- app_assoc.
      * by exists [].
    + by exists [].
Qed.

End StaticPath.

(** *** The scenarios of the design document, and runs against failing
    collaborators *)

Local Open Scope Z_scope.

Example scenario_static :
  makeMinionRegistry neverFails neverFails twoNodes (emptyWorld []) =
  (minion.EtcdRegistry (staticRegistry twoNodes),
   {| backend := map (newMinion twoNodes) ["n1"; "n2"]; log := [] |}).
Proof. reflexivity. Qed.

Example scenario_healthy :
  fst (makeMinionRegistry neverFails neverFails
         (twoNodesWith None "" true 0) (emptyWorld [])) =
  minion.HealthyRegistry (minion.EtcdRegistry (staticRegistry twoNodes))
                         http.ZeroClient.
Proof. reflexivity. Qed.

Example scenario_cached :
  fst (makeMinionRegistry neverFails neverFails
         (twoNodesWith None "" true (30 * time.Second)) (emptyWorld [])) =
  minion.CachingRegistry
    (minion.HealthyRegistry (minion.EtcdRegistry (staticRegistry twoNodes))
                            http.ZeroClient)
    (30 * time.Second).
Proof. reflexivity. Qed.

Example scenario_cloud :
  makeMinionRegistry neverFails neverFails
    (twoNodesWith (Some someCloud) "n.*" false 0) (emptyWorld []) =
  (minion.CloudRegistry someCloud "n.*" (NodeResources twoNodes),
   emptyWorld []).
Proof. reflexivity. Qed.

(** A cloud handle without a pattern, or a pattern without a cloud
    handle, leads to the static registry. *)
Example scenario_cloud_no_pattern :
  fst (makeMinionRegistry neverFails neverFails
         (twoNodesWith (Some someCloud) "" false 0) (emptyWorld [])) =
  minion.EtcdRegistry (staticRegistry twoNodes).
Proof. reflexivity. Qed.

Lemma cloud_failure_falls_back_witness :
  let c := twoNodesWith (Some someCloud) "n.*" true (30 * time.Second) in
  let run := makeMinionRegistry (alwaysFails "no credentials") neverFails c
                                (emptyWorld []) in
  base (fst run) = minion.EtcdRegistry (etcd.NewRegistry (EtcdHelper c) etcd.NilFactory) /\
  (let recorded :=
     backend (snd
       (makeMinionRegistry (H:=recording keyedStore) (alwaysFails "no credentials")
          (onRecorded neverFails) c {| backend := ([], []); log := [] |})) in
   map fst (snd recorded) =
     map (fun minionID =>
            {| api.TypeMeta_ := {| api.ID := minionID |};
               api.NodeResources_ := NodeResources c |}) (Minions c) /\
   fst recorded = backend (snd run)) /\
  backend (snd run) =
    createMinions (etcd.NewRegistry (EtcdHelper c) etcd.NilFactory) c (Minions c) [] /\
  exists rest, log (snd run) = [] ++ cloudLine "no credentials" :: rest.
Proof.
  apply (cloud_failure_falls_back (H:=keyedStore) (alwaysFails "no credentials")
           neverFails
           (twoNodesWith (Some someCloud) "n.*" true (30 * time.Second))
           (emptyWorld []) someCloud "no credentials").
  - reflexivity.
  - simpl. lia.
  - reflexivity.
Defined.

Lemma caching_step_witness :
  let c := twoNodesWith None "" true (30 * time.Second) in
  let pre := makeMinionRegistry neverFails (alwaysFails "list failed")
               (withoutCache c) (emptyWorld []) in
  let post := makeMinionRegistry neverFails (alwaysFails "list failed")
                c (emptyWorld []) in
  fst post = fst pre /\
  backend (snd post) = backend (snd pre) /\
  log (snd post) = log (snd pre) ++ [cacheLine].
Proof.
  apply (caching_step neverFails (alwaysFails "list failed")
           (twoNodesWith None "" true (30 * time.Second)) (emptyWorld [])).
  vm_compute. reflexivity.
Defined.

Lemma creation_errors_dropped_witness :
  let c := twoNodes in
  map fst (snd (backend (snd
    (makeMinionRegistry (H:=recording unreachableStore) neverFails
       (onRecorded neverFails) c {| backend := ([], []); log := [] |})))) =
    map (newMinion c) (Minions c) /\
  base (fst (makeMinionRegistry (H:=unreachableStore) neverFails neverFails c
               (emptyWorld []))) =
    minion.EtcdRegistry (etcd.NewRegistry (EtcdHelper c) etcd.NilFactory) /\
  (exists lines,
    log (snd (makeMinionRegistry (H:=unreachableStore) neverFails neverFails c
                (emptyWorld []))) = [] ++ lines /\
    Forall (fun l => (exists e, l = cloudLine e) \/ l = cacheLine) lines) /\
  minionRegistry
    (fst (fst (New (H:=unreachableStore) neverFails neverFails float64.wrapAround c
                   (emptyWorld []) emptyProcess))) =
    fst (makeMinionRegistry (H:=unreachableStore) neverFails neverFails c
           (emptyWorld [])).
Proof.
  apply (creation_errors_dropped (H:=unreachableStore) neverFails neverFails
           float64.wrapAround twoNodes (emptyWorld []) emptyProcess).
  reflexivity.
Defined.


(** C1 at a concrete input.  Against a store that cannot be reached both
    creations of the two-node configuration fail; the builder returns the
    static registry all the same and logs nothing, and [New] completes
    with its storage map in place. *)
Lemma creation_error_not_surfaced :
  creationErrors (H:=unreachableStore) (staticRegistry twoNodes) twoNodes
                 (Minions twoNodes) [] = ["unreachable"; "unreachable"] /\
  makeMinionRegistry (H:=unreachableStore) neverFails neverFails twoNodes
                     (emptyWorld []) =
    (minion.EtcdRegistry (staticRegistry twoNodes), emptyWorld []) /\
  ~ surfaced (emptyWorld [])
      (snd (makeMinionRegistry (H:=unreachableStore) neverFails neverFails
              twoNodes (emptyWorld []))) /\
  exists m p,
    New (H:=unreachableStore) neverFails neverFails float64.wrapAround twoNodes
        (emptyWorld []) emptyProcess = (m, emptyWorld [], p) /\
    minionRegistry m = minion.EtcdRegistry (staticRegistry twoNodes) /\
    is_Some (storage m).
Proof.
  split; [reflexivity|]. split; [reflexivity|]. split.
  - intros Hs. apply Hs. reflexivity.
  - eexists _, _. split; [reflexivity|]. split; [reflexivity|]. by eexists.
Qed.


(** ** The storage map and its exporters *)

Lemma newMap_fresh entries p :
  heap p !! fst (newMap entries p) = None /\
  heap (snd (newMap entries p)) = <[fst (newMap entries p) := entries]> (heap p) /\
  goroutines (snd (newMap entries p)) = goroutines p.
Proof.
  unfold newMap; simpl. split; [|done].
  apply not_elem_of_dom, is_fresh.
Qed.

Lemma entriesOf_newMap m entries p :
  entries = ∅ \/ (forall l, m = Some l -> is_Some (heap p !! l)) ->
  entriesOf m (snd (newMap entries p)) = entriesOf m p.
Proof.
  intros Hcase. destruct m as [l0|]; [|done].
  destruct (newMap_fresh entries p) as (Hfresh & Hheap & _).
  unfold entriesOf. rewrite Hheap.
  destruct (decide (fst (newMap entries p) = l0)) as [<-|Hne].
  - rewrite lookup_insert_eq, Hfresh. simpl.
    destruct Hcase as [->|Halloc]; [done|].
    destruct (Halloc _ eq_refl) as [x Hx]. congruence.
  - by rewrite lookup_insert_ne.
Qed.

(** The copy loop leaves, at the new address, the entries of the
    master's map, and touches no other map object. *)
Lemma copyStorage_spec m p :
  heap p !! fst (copyStorage m p) = None /\
  heap (snd (copyStorage m p)) =
    <[fst (copyStorage m p) := entriesOf (storage m) p]> (heap p) /\
  goroutines (snd (copyStorage m p)) = goroutines p.
Proof.
  unfold copyStorage.
  destruct (newMap ∅ p) as [l p1] eqn:Hnew.
  pose proof (newMap_fresh ∅ p) as (Hfresh & Hheap & Hgo).
  pose proof (entriesOf_newMap (storage m) ∅ p (or_introl eq_refl)) as Hent.
  rewrite Hnew in Hfresh, Hheap, Hgo, Hent. simpl in *.
  rewrite Hent. split; [done|].
  generalize (entriesOf (storage m) p). intros M.
  apply (map_fold_weak_ind
           (fun r M' => heap r = <[l := M']> (heap p) /\ goroutines r = goroutines p)).
  - done.
  - intros k v M' r _ [Hr Hg]. unfold mapStore; simpl.
    by rewrite Hr, alter_insert_eq.
Qed.

Lemma export_spec v m p :
  fst (export v m p) =
    (fst (copyStorage m p),
     match v with V1beta1 => v1beta1.Codec | V1beta2 => v1beta2.Codec end,
     "/api/v1beta1", latest.SelfLinker) /\
  snd (export v m p) = snd (copyStorage m p).
Proof.
  destruct v; unfold export, API_v1beta1, API_v1beta2;
    by destruct (copyStorage m p).
Qed.

Lemma export_heap v m p :
  heap p !! exported v m p = None /\
  heap (snd (export v m p)) =
    <[exported v m p := entriesOf (storage m) p]> (heap p).
Proof.
  unfold exported. destruct (export_spec v m p) as [-> ->]. simpl.
  by destruct (copyStorage_spec m p) as (? & ? & _).
Qed.

(** What [init] leaves: the master's map at a new address, holding the
    seven adapters, and one more goroutine. *)
Lemma init_spec m cloud podInfoGetter p :
  exists l M,
    storage (fst (init m cloud podInfoGetter p)) = Some l /\
    heap p !! l = None /\
    heap (snd (init m cloud podInfoGetter p)) = <[l := M]> (heap p) /\
    dom M = resourceKinds.
Proof.
  unfold init.
  match goal with |- context [newMap ?e ?q] =>
    pose proof (newMap_fresh e q) as (Hfresh & Hheap & _);
    destruct (newMap e q) as [l p1] eqn:Hnew; exists l, e
  end.
  simpl in *. split; [done|]. split; [done|]. split; [done|].
  rewrite !dom_insert_L, dom_empty_L. unfold resourceKinds. set_solver.
Qed.

Lemma step_inv m l0 M st s :
  storage m = Some l0 -> callerInv l0 M st -> callerInv l0 M (step m st s).
Proof.
  intros Hm (Hl0 & Hnot & Hall). destruct s as [v | i k h | i k]; simpl.
  - pose proof (export_heap v m (proc st)) as [Hfresh Hheap].
    unfold exported in *.
    destruct (export v m (proc st)) as [[[[l cdc] root] sl] p']. simpl in *.
    assert (l <> l0) as Hne by (intros ->; congruence).
    unfold callerInv; simpl. rewrite Hheap. split; [|split].
    + by rewrite lookup_insert_ne.
    + rewrite elem_of_app, list_elem_of_singleton. intros [?|?]; [done|congruence].
    + apply Forall_app. split.
      * eapply Forall_impl; [exact Hall|]. intros l' [x Hx]. simpl.
        destruct (decide (l = l')) as [->|]; [congruence|].
        rewrite lookup_insert_ne by done. by exists x.
      * constructor; [|constructor]. rewrite lookup_insert_eq. by eexists.
  - destruct (returned st !! i) as [l|] eqn:Hi; [|done].
    assert (l ∈ returned st) as Hin by (eapply list_elem_of_lookup_2; eauto).
    assert (l <> l0) as Hne by (intros ->; done).
    unfold callerInv, mapStore; simpl. split; [|split; [done|]].
    + by rewrite lookup_alter_ne.
    + eapply Forall_impl; [exact Hall|]. intros l' Hl'. simpl.
      by apply lookup_alter_is_Some.
  - destruct (returned st !! i) as [l|] eqn:Hi; [|done].
    assert (l ∈ returned st) as Hin by (eapply list_elem_of_lookup_2; eauto).
    assert (l <> l0) as Hne by (intros ->; done).
    unfold callerInv, mapDelete; simpl. split; [|split; [done|]].
    + by rewrite lookup_alter_ne.
    + eapply Forall_impl; [exact Hall|]. intros l' Hl'. simpl.
      by apply lookup_alter_is_Some.
Qed.

Lemma run_inv m l0 M steps st :
  storage m = Some l0 -> callerInv l0 M st -> callerInv l0 M (run m steps st).
Proof.
  intros Hm. revert st. induction steps as [|s steps IH]; intros st Hinv; simpl.
  - done.
  - apply IH. by apply step_inv.
Qed.

Lemma init_inv m0 cloud podInfoGetter p0 :
  exists l M,
    storage (fst (init m0 cloud podInfoGetter p0)) = Some l /\
    dom M = resourceKinds /\
    entriesOf (storage (fst (init m0 cloud podInfoGetter p0)))
              (snd (init m0 cloud podInfoGetter p0)) = M /\
    callerInv l M (freshCaller (snd (init m0 cloud podInfoGetter p0))).
Proof.
  destruct (init_spec m0 cloud podInfoGetter p0) as (l & M & Hst & _ & Hheap & Hdom).
  exists l, M. split; [done|]. split; [done|].
  rewrite Hst. unfold entriesOf, callerInv, freshCaller.
  cbn [proc returned]. rewrite Hheap, lookup_insert_eq.
  split; [done|]. split; [done|]. split; [apply not_elem_of_nil | constructor].
Qed.

(** C3.  Right after [init] the master's storage map has the seven
    resource kinds as its keys and no other; and whatever the callers do
    afterwards (calls of the two exporters, stores into and deletions from
    the maps they were returned, in any number and order) the master's
    map holds the same entries. *)
Theorem storage_kinds_fixed (m0 : Master) (cloud : option cloudprovider.Interface)
    (podInfoGetter : client.PodInfoGetter) (p0 : Process)
    (steps : list CallerStep) :
  let m := fst (init m0 cloud podInfoGetter p0) in
  let p := snd (init m0 cloud podInfoGetter p0) in
  dom (entriesOf (storage m) p) =
    {[ "pods"; "replicationControllers"; "services"; "endpoints"; "minions";
       "events"; "bindings" ]} /\
  entriesOf (storage m) (proc (run m steps (freshCaller p))) =
    entriesOf (storage m) p.
Proof.
  intros m p. subst m p.
  destruct (init_inv m0 cloud podInfoGetter p0) as (l & M & Hst & Hdom & Hent & Hinv).
  rewrite Hent. split; [done|].
  destruct (run_inv _ l M steps _ Hst Hinv) as (Hl & _ & _).
  rewrite Hst. unfold entriesOf. by rewrite Hl.
Qed.

(** Two exporter calls in a row, from a state that satisfies the
    invariant. *)
Lemma successive_exports m l M st v1 v2 :
  storage m = Some l -> callerInv l M st ->
  let l1 := exported v1 m (proc st) in
  let p1 := snd (export v1 m (proc st)) in
  let l2 := exported v2 m p1 in
  let p2 := snd (export v2 m p1) in
  (l1 <> l /\ l2 <> l /\ l1 <> l2 /\ (l1 ∉ returned st) /\ (l2 ∉ returned st)) /\
  heap p2 !! l = Some M /\ heap p2 !! l1 = Some M /\ heap p2 !! l2 = Some M.
Proof.
  intros Hst (Hl & Hnot & Hall) l1 p1 l2 p2.
  pose proof (export_heap v1 m (proc st)) as [Hf1 Hh1]. fold l1 p1 in Hf1, Hh1.
  pose proof (export_heap v2 m p1) as [Hf2 Hh2]. fold l2 p2 in Hf2, Hh2.
  assert (entriesOf (storage m) (proc st) = M) as He0
    by (rewrite Hst; unfold entriesOf; by rewrite Hl).
  assert (l1 <> l) as Hl1 by (intros ->; congruence).
  assert (heap p1 !! l = Some M) as Hp1
    by (rewrite Hh1, lookup_insert_ne; done).
  assert (entriesOf (storage m) p1 = M) as He1
    by (rewrite Hst; unfold entriesOf; by rewrite Hp1).
  assert (l2 <> l) as Hl2 by (intros ->; congruence).
  assert (l1 <> l2) as H12.
  { intros Heq. rewrite <- Heq, Hh1, lookup_insert_eq in Hf2. done. }
  rewrite He0 in Hh1. rewrite He1 in Hh2.
  assert (forall l', l' ∈ returned st -> is_Some (heap (proc st) !! l')) as Hret
    by (by apply Forall_forall).
  split; [|split; [|split]].
  - split; [done|]. split; [done|]. split; [done|]. split.
    + intros Hin. destruct (Hret _ Hin) as [x Hx]. congruence.
    + intros Hin. destruct (Hret _ Hin) as [x Hx].
      rewrite Hh1, lookup_insert_ne in Hf2 by done. congruence.
  - rewrite Hh2, lookup_insert_ne; done.
  - rewrite Hh2, lookup_insert_ne, Hh1, lookup_insert_eq; done.
  - rewrite Hh2, lookup_insert_eq; done.
Qed.

(** C7.  In any state the callers can bring about after [init], two
    successive calls of exporters return two map objects that are new,
    distinct from each other and from the master's map, and hold the
    master's entries.  Storing into or deleting from the first changes
    that object and neither the master's map, nor the second object, nor
    what a later call returns. *)
Theorem exported_maps_independent (m0 : Master)
    (cloud : option cloudprovider.Interface)
    (podInfoGetter : client.PodInfoGetter) (p0 : Process)
    (steps : list CallerStep) (v1 v2 v3 : Version)
    (k : string) (h : apiserver.RESTStorage) :
  let m := fst (init m0 cloud podInfoGetter p0) in
  let M := entriesOf (storage m) (snd (init m0 cloud podInfoGetter p0)) in
  let st := run m steps (freshCaller (snd (init m0 cloud podInfoGetter p0))) in
  let l1 := exported v1 m (proc st) in
  let p1 := snd (export v1 m (proc st)) in
  let l2 := exported v2 m p1 in
  let p2 := snd (export v2 m p1) in
  (l1 <> l2 /\ storage m <> Some l1 /\ storage m <> Some l2 /\
   (l1 ∉ returned st) /\ (l2 ∉ returned st)) /\
  (heap p2 !! l1 = Some M /\ heap p2 !! l2 = Some M) /\
  (let p3 := mapDelete l1 k p2 in
   heap p3 !! l1 = Some (delete k M) /\
   entriesOf (storage m) p3 = M /\
   heap p3 !! l2 = Some M /\
   heap (snd (export v3 m p3)) !! exported v3 m p3 = Some M) /\
  (let p3 := mapStore l1 k h p2 in
   heap p3 !! l1 = Some (<[k := h]> M) /\
   entriesOf (storage m) p3 = M /\
   heap p3 !! l2 = Some M /\
   heap (snd (export v3 m p3)) !! exported v3 m p3 = Some M).
Proof.
  intros m M st l1 p1 l2 p2.
  destruct (init_inv m0 cloud podInfoGetter p0) as (l & M' & Hst & _ & Hent & Hinv).
  fold m in Hst, Hent. fold M in Hent. subst M'.
  pose proof (run_inv m l M steps _ Hst Hinv) as Hrun. fold st in Hrun.
  destruct (successive_exports m l M st v1 v2 Hst Hrun)
    as ((Hl1 & Hl2 & H12 & Hn1 & Hn2) & Hp2l & Hp2l1 & Hp2l2).
  fold l1 p1 l2 p2 in Hl1, Hl2, H12, Hn1, Hn2, Hp2l, Hp2l1, Hp2l2.
  split; [|split; [done|]].
  { split; [done|]. split; [congruence|]. split; [congruence|]. done. }
  assert (forall f : storageMap -> storageMap,
    let p3 := {| heap := alter f l1 (heap p2); goroutines := goroutines p2 |} in
    heap p3 !! l1 = Some (f M) /\
    entriesOf (storage m) p3 = M /\
    heap p3 !! l2 = Some M /\
    heap (snd (export v3 m p3)) !! exported v3 m p3 = Some M) as Hmut.
  { intros f p3.
    assert (heap p3 !! l = Some M) as Hp3l
      by (unfold p3; simpl; rewrite lookup_alter_ne; done).
    assert (entriesOf (storage m) p3 = M) as He3
      by (rewrite Hst; unfold entriesOf; by rewrite Hp3l).
    split; [unfold p3; simpl; by rewrite lookup_alter_eq, Hp2l1|].
    split; [done|].
    split; [unfold p3; simpl; by rewrite lookup_alter_ne|].
    destruct (export_heap v3 m p3) as [_ ->]. by rewrite lookup_insert_eq, He3. }
  split.
  - apply (Hmut (delete k)).
  - apply (Hmut (insert k h)).
Qed.

(** C8.  In any state the callers can bring about after [init], the two
    exporters return maps with the same keys bound to the same adapters,
    which are the master's; the same self-linker; the same root path,
    ["/api/v1beta1"]; and two different codecs. *)
Theorem versions_agree (m0 : Master) (cloud : option cloudprovider.Interface)
    (podInfoGetter : client.PodInfoGetter) (p0 : Process)
    (steps : list CallerStep) :
  let m := fst (init m0 cloud podInfoGetter p0) in
  let M := entriesOf (storage m) (snd (init m0 cloud podInfoGetter p0)) in
  let st := run m steps (freshCaller (snd (init m0 cloud podInfoGetter p0))) in
  let '((storage1, codec1, root1, selfLinker1), p1) := API_v1beta1 m (proc st) in
  let '((storage2, codec2, root2, selfLinker2), p2) := API_v1beta2 m p1 in
  (heap p2 !! storage1 = Some M /\ heap p2 !! storage2 = Some M /\
   dom M = resourceKinds) /\
  (selfLinker1 = latest.SelfLinker /\ selfLinker2 = latest.SelfLinker) /\
  (codec1 = v1beta1.Codec /\ codec2 = v1beta2.Codec /\
   codec1 <> codec2) /\
  (root1 = "/api/v1beta1" /\ root2 = "/api/v1beta1").
Proof.
  intros m M st.
  destruct (init_inv m0 cloud podInfoGetter p0) as (l & M' & Hst & Hdom & Hent & Hinv).
  fold m in Hst, Hent. fold M in Hent. subst M'.
  pose proof (run_inv m l M steps _ Hst Hinv) as Hrun. fold st in Hrun.
  destruct (successive_exports m l M st V1beta1 V1beta2 Hst Hrun)
    as (_ & _ & H1 & H2).
  clearbody m M st. clear Hinv.
  pose proof (export_spec V1beta1 m (proc st)) as [Hr1 _].
  unfold exported in H1, H2.
  change (API_v1beta1 m (proc st)) with (export V1beta1 m (proc st)).
  destruct (export V1beta1 m (proc st)) as [[[[storage1 codec1] root1] sl1] p1].
  cbn [fst snd] in H1, H2, Hr1.
  pose proof (export_spec V1beta2 m p1) as [Hr2 _].
  change (API_v1beta2 m p1) with (export V1beta2 m p1).
  destruct (export V1beta2 m p1) as [[[[storage2 codec2] root2] sl2] p2].
  cbn [fst snd] in H1, H2, Hr2.
  inversion Hr1; inversion Hr2; subst.
  repeat split; done.
Qed.

(** ** The background refresh *)

Lemma cycle_mon f d : monotone1 (cycle f d).
Proof.
  intros t r r' Hc LE. unfold cycle in *.
  destruct Hc as [k Hk]. constructor. intros outcome.
  destruct (Hk outcome) as (k' & Hobs & t' & Hobs' & Hr). eauto 10.
Qed.
#[local] Hint Resolve cycle_mon : paco.

Lemma loop_perpetual c : perpetual (util.f c) (util.period c) (util.loop c).
Proof.
  unfold perpetual. pcofix CIH. pfold. unfold cycle. cbn.
  constructor. intros outcome. eexists. split; [cbn; reflexivity|].
  eexists. split; [cbn; reflexivity|]. right. apply CIH.
Qed.

Lemma loop_cycles c n outcomes :
  cycles n outcomes (util.loop c) = replicate n (util.f c, util.period c).
Proof.
  induction n as [|n IH]; [done|].
  cbn. fold (util.loop c). by rewrite IH.
Qed.

Lemma step_goroutines m st s :
  goroutines (proc (step m st s)) = goroutines (proc st).
Proof.
  destruct s as [v | i k h | i k]; simpl.
  - destruct (export_spec v m (proc st)) as [_ Hsnd].
    destruct (copyStorage_spec m (proc st)) as (_ & _ & Hgo).
    destruct (export v m (proc st)) as [[[[l cdc] root] sl] p']. simpl in *.
    by rewrite Hsnd.
  - by destruct (returned st !! i).
  - by destruct (returned st !! i).
Qed.

Lemma run_goroutines m steps st :
  goroutines (proc (run m steps st)) = goroutines (proc st).
Proof.
  revert st. induction steps as [|s steps IH]; intros st; simpl; [done|].
  by rewrite IH, step_goroutines.
Qed.

Lemma init_goroutines m0 cloud podInfoGetter p0 :
  goroutines (snd (init m0 cloud podInfoGetter p0)) =
  goroutines p0 ++
    [util.Forever (util.UpdateAllContainers (NewPodCache podInfoGetter (podRegistry m0)))
                  (time.Second * 30)].
Proof. reflexivity. Qed.

(** C9.  [init] starts one goroutine, which runs [util.Forever] on the
    full-scan update of the pod cache with a period of 30 seconds.
    Nothing the callers do afterwards stops it or starts another.  The
    task is perpetual: it invokes the update, sleeps 30 seconds and starts
    over, without end and however each invocation ends; its first [n]
    cycles are [n] invocations of the update, each followed by a sleep of
    30 seconds. *)
Theorem background_refresh (m0 : Master) (cloud : option cloudprovider.Interface)
    (podInfoGetter : client.PodInfoGetter) (p0 : Process)
    (steps : list CallerStep) (n : nat) (outcomes : nat -> option error) :
  let m := fst (init m0 cloud podInfoGetter p0) in
  let p := snd (init m0 cloud podInfoGetter p0) in
  let update := util.UpdateAllContainers (NewPodCache podInfoGetter (podRegistry m0)) in
  let task := util.Forever update 30000000000 in
  goroutines p = goroutines p0 ++ [task] /\
  goroutines (proc (run m steps (freshCaller p))) = goroutines p /\
  perpetual update (30 * time.Second) (util.loop task) /\
  cycles n outcomes (util.loop task) = replicate n (update, 30 * time.Second).
Proof.
  intros m p update task. split; [|split; [|split]].
  - apply init_goroutines.
  - apply run_goroutines.
  - apply (loop_perpetual task).
  - apply (loop_cycles task).
Qed.

(** ** The event time-to-live

    [uint64(c.EventTTL.Seconds())] goes through float64.  The lemmas below
    follow the binary64 operations bit by bit: how many bits a mantissa
    has, what a right shift keeps, and by how much rounding to 53 bits can
    move a value. *)

(** *** Mantissas, shifts and rounding *)

Lemma digits2_pos_bounds (p : positive) :
  2 ^ (Zpos (digits2_pos p) - 1) <= Zpos p < 2 ^ Zpos (digits2_pos p).
Proof.
  induction p as [p IH|p IH|]; simpl digits2_pos.
  - rewrite Pos2Z.inj_succ.
    replace (Z.succ (Zpos (digits2_pos p)) - 1) with (Z.succ (Zpos (digits2_pos p) - 1)) by lia.
    rewrite !Z.pow_succ_r by lia. lia.
  - rewrite Pos2Z.inj_succ.
    replace (Z.succ (Zpos (digits2_pos p)) - 1) with (Z.succ (Zpos (digits2_pos p) - 1)) by lia.
    rewrite !Z.pow_succ_r by lia. lia.
  - simpl. lia.
Qed.

Lemma digits2_pos_unique (p : positive) (k : Z) :
  2 ^ (k - 1) <= Zpos p < 2 ^ k -> Zpos (digits2_pos p) = k.
Proof.
  intros [Hlo Hhi]. pose proof (digits2_pos_bounds p) as [Hlo' Hhi'].
  assert (0 < k) as Hk.
  { destruct (Z.ltb_spec 0 k) as [|Hle]; [done|].
    destruct (Z.eqb_spec k 0) as [->|]; [simpl in Hhi; lia|].
    rewrite Z.pow_neg_r in Hhi by lia. lia. }
  destruct (Z.lt_trichotomy (Zpos (digits2_pos p)) k) as [Hlt|[Heq|Hgt]]; [|done|].
  - assert (2 ^ Zpos (digits2_pos p) <= 2 ^ (k - 1)) by (apply Z.pow_le_mono_r; lia). lia.
  - assert (2 ^ k <= 2 ^ (Zpos (digits2_pos p) - 1)) by (apply Z.pow_le_mono_r; lia). lia.
Qed.

Lemma shr_1_m mrs : 0 <= shr_m mrs -> shr_m (shr_1 mrs) = shr_m mrs / 2.
Proof.
  destruct mrs as [m r s]. cbn [shr_m]. intros Hm.
  destruct m as [|[p|p|]|p]; cbn [shr_1 shr_m]; try lia; try done.
  - apply (Z.div_unique _ 2 _ 1); lia.
  - apply (Z.div_unique _ 2 _ 0); lia.
Qed.

Lemma iter_pos_shr_1_m (n : positive) mrs :
  0 <= shr_m mrs -> shr_m (SpecFloat.iter_pos shr_1 n mrs) = shr_m mrs / 2 ^ Zpos n.
Proof.
  revert mrs. induction n as [n IH|n IH|]; intros mrs Hm; simpl SpecFloat.iter_pos.
  - assert (0 <= shr_m (shr_1 mrs)) as H1
      by (rewrite shr_1_m by done; apply Z.div_pos; lia).
    assert (0 <= shr_m (SpecFloat.iter_pos shr_1 n (shr_1 mrs))) as H2
      by (rewrite IH by done; apply Z.div_pos; lia).
    rewrite IH, IH, shr_1_m by done.
    rewrite !Z.div_div by lia.
    replace (Zpos n~1) with (1 + Zpos n + Zpos n) by lia.
    rewrite !Z.pow_add_r by lia. f_equal. lia.
  - assert (0 <= shr_m (SpecFloat.iter_pos shr_1 n mrs)) as H2
      by (rewrite IH by done; apply Z.div_pos; lia).
    rewrite IH, IH by done.
    rewrite !Z.div_div by lia.
    replace (Zpos n~0) with (Zpos n + Zpos n) by lia.
    by rewrite !Z.pow_add_r by lia.
  - rewrite shr_1_m by done. done.
Qed.

Lemma round_nearest_even_bounds m l :
  m <= round_nearest_even m l <= m + 1.
Proof.
  destruct l as [|[| |]]; simpl; try lia. destruct (Z.even m); lia.
Qed.

Lemma pos_iter_xO (p k : positive) : Zpos (Pos.iter xO p k) = Zpos p * 2 ^ Zpos k.
Proof.
  revert p. induction k as [|k IH] using Pos.peano_ind; intros p.
  - simpl. lia.
  - rewrite Pos.iter_succ, Pos2Z.inj_xO, IH, Pos2Z.inj_succ, Z.pow_succ_r by lia. lia.
Qed.

Lemma fexp64 e : fexp 53 1024 e = Z.max (e - 53) (-1074).
Proof. reflexivity. Qed.

Lemma round64_exact s (M : positive) (E : Z) :
  Zpos (digits2_pos M) <= 53 -> -1074 <= E <= 971 ->
  round64 s (Zpos M) E loc_Exact = S754_finite s M E.
Proof.
  intros Hd HE. unfold binary_round_aux, shr_fexp. simpl Zdigits2.
  rewrite fexp64. simpl shr_record_of_loc.
  assert (Z.max (Zpos (digits2_pos M) + E - 53) (-1074) - E <= 0) as Hn by lia.
  unfold shr at 1.
  destruct (Z.max (Zpos (digits2_pos M) + E - 53) (-1074) - E) eqn:Hs; try lia.
  - simpl. rewrite fexp64, Hs. simpl.
    destruct (Z.leb_spec E (1024 - 53)); [done|lia].
  - simpl. rewrite fexp64, Hs. simpl.
    destruct (Z.leb_spec E (1024 - 53)); [done|lia].
Qed.

Lemma digits2_pos_le (p : positive) (k : Z) :
  Zpos p < 2 ^ k -> Zpos (digits2_pos p) <= k.
Proof.
  intros Hp. pose proof (digits2_pos_bounds p) as [Hlo _].
  destruct (Z.le_gt_cases (Zpos (digits2_pos p)) k) as [|Hgt]; [done|].
  assert (2 ^ k <= 2 ^ (Zpos (digits2_pos p) - 1)) by (apply Z.pow_le_mono_r; lia).
  lia.
Qed.

Lemma shifted_shr_1 M n mrs :
  0 <= M -> 0 <= n -> shifted M n mrs -> shifted M (n + 1) (shr_1 mrs).
Proof.
  intros HM Hn [Hm Hr].
  assert (0 < 2 ^ n) as Hpow by (apply Z.pow_pos_nonneg; lia).
  assert (0 <= shr_m mrs) as Hm0 by (rewrite Hm; apply Z.div_pos; lia).
  assert (2 ^ (n + 1) = 2 ^ n * 2) as Hsucc by (rewrite Z.pow_add_r by lia; done).
  split.
  - rewrite shr_1_m by done. rewrite Hm, Z.div_div, Hsucc by lia. done.
  - intros Hr'. rewrite Hsucc, Z.rem_mul_r by lia. rewrite <- Hm.
    assert (shr_m mrs mod 2 = 1) as ->.
    { destruct mrs as [m r s]. cbn [shr_m] in *.
      destruct m as [|[p|p|]|p]; cbn [shr_1 shr_r] in Hr'; try done; try lia.
      rewrite Pos2Z.inj_xI. rewrite Z.add_comm, Z.mul_comm, Z.mod_add by lia. done. }
    pose proof (Z.mod_pos_bound M (2 ^ n) Hpow). lia.
Qed.

Lemma shifted_iter_pos (p : positive) M n mrs :
  0 <= M -> 0 <= n -> shifted M n mrs ->
  shifted M (n + Zpos p) (SpecFloat.iter_pos shr_1 p mrs).
Proof.
  intros HM. revert n mrs.
  induction p as [p IH|p IH|]; intros n mrs Hn Hs; simpl SpecFloat.iter_pos.
  - replace (n + Zpos p~1) with (n + 1 + Zpos p + Zpos p) by lia.
    apply IH; [lia|]. apply IH; [lia|]. by apply shifted_shr_1.
  - replace (n + Zpos p~0) with (n + Zpos p + Zpos p) by lia.
    apply IH; [lia|]. by apply IH.
  - by apply shifted_shr_1.
Qed.

Lemma round_nearest_even_up mrs :
  round_nearest_even (shr_m mrs) (loc_of_shr_record mrs) <> shr_m mrs ->
  shr_r mrs = true.
Proof. destruct mrs as [m [|] [|]]; simpl; try done. Qed.

(** Rounding to 53 bits: with [n] the number of bits that do not fit, the
    result lies between the mantissa cut at [n] bits and one unit in the
    last place above it, whatever lies beyond the mantissa ([l]). *)
Lemma round64_bounds s (M : positive) (E : Z) (l : location) :
  let n := Z.max 0 (Zpos (digits2_pos M) - 53) in
  -1074 <= E -> E + n + 1 <= 971 ->
  exists m e,
    round64 s (Zpos M) E l = S754_finite s m e /\
    (e = E + n \/ e = E + n + 1) /\
    (Zpos M / 2 ^ n) * 2 ^ n <= Zpos m * 2 ^ (e - E) <= (Zpos M / 2 ^ n + 1) * 2 ^ n /\
    (l = loc_Exact -> 2 * (Zpos m * 2 ^ (e - E)) <= 2 * Zpos M + 2 ^ n).
Proof.
  intros n HE Hmax.
  pose proof (digits2_pos_bounds M) as [Hlo Hhi].
  set (m1 := Zpos M / 2 ^ n).
  assert (0 < 2 ^ n) as Hpow by (apply Z.pow_pos_nonneg; lia).
  assert (0 < m1 < 2 ^ 53) as Hm1.
  { unfold m1. split.
    - apply Z.div_str_pos. split; [done|].
      destruct (Z.max_spec 0 (Zpos (digits2_pos M) - 53)) as [[_ Hn]|[_ Hn]];
        fold n in Hn; rewrite Hn; [|simpl; lia].
      etransitivity; [|exact Hlo]. apply Z.pow_le_mono_r; lia.
    - apply Z.div_lt_upper_bound; [lia|].
      rewrite <- Z.pow_add_r by lia.
      eapply Z.lt_le_trans; [exact Hhi|]. apply Z.pow_le_mono_r; lia. }
  unfold binary_round_aux, shr_fexp at 1. simpl Zdigits2. rewrite fexp64.
  set (mrs0 := shr_record_of_loc (Zpos M) l).
  assert (shr_m mrs0 = Zpos M) as Hmrs0 by (unfold mrs0; by destruct l as [|[| |]]).
  assert (exists mrs1,
    shr mrs0 E (Z.max (Zpos (digits2_pos M) + E - 53) (-1074) - E) = (mrs1, E + n) /\
    shr_m mrs1 = m1 /\
    (l = loc_Exact -> shifted (Zpos M) n mrs1)) as (mrs1 & -> & Hmrs1 & Hsh).
  { assert (l = loc_Exact -> shifted (Zpos M) 0 mrs0) as Hsh0.
    { intros ->. split; [by rewrite Z.pow_0_r, Z.div_1_r | done]. }
    unfold shr.
    destruct (Z.max (Zpos (digits2_pos M) + E - 53) (-1074) - E) as [|pn|pn] eqn:Hs.
    - exists mrs0. assert (n = 0) as Hn0 by lia.
      unfold m1. rewrite Hn0, Z.add_0_r, Hmrs0, Z.pow_0_r, Z.div_1_r. done.
    - exists (SpecFloat.iter_pos shr_1 pn mrs0).
      assert (n = Zpos pn) as Hn0 by lia.
      unfold m1. rewrite Hn0. split; [done|]. split.
      + rewrite iter_pos_shr_1_m by (rewrite Hmrs0; lia). by rewrite Hmrs0.
      + intros Hl. apply (shifted_iter_pos pn (Zpos M) 0); [lia | lia | by apply Hsh0].
    - exists mrs0. assert (n = 0) as Hn0 by lia.
      unfold m1. rewrite Hn0, Z.add_0_r, Hmrs0, Z.pow_0_r, Z.div_1_r. done. }
  pose proof (round_nearest_even_bounds (shr_m mrs1) (loc_of_shr_record mrs1)) as Hr.
  pose proof (round_nearest_even_up mrs1) as Hup.
  remember (round_nearest_even (shr_m mrs1) (loc_of_shr_record mrs1)) as m1' eqn:Hq.
  assert (l = loc_Exact -> 2 * (m1' * 2 ^ n) <= 2 * Zpos M + 2 ^ n) as Hnear.
  { intros Hl. destruct (Hsh Hl) as [_ Hhalf].
    pose proof (Z.div_mod (Zpos M) (2 ^ n) ltac:(lia)) as Hdm. fold m1 in Hdm.
    pose proof (Z.mod_pos_bound (Zpos M) (2 ^ n) Hpow) as Hmb.
    rewrite Hmrs1 in Hr, Hup.
    destruct (Z.eq_dec m1' m1) as [->|Hne]; [nia|].
    specialize (Hhalf (Hup Hne)). nia. }
  rewrite Hmrs1 in Hr. clear Hq Hmrs1 Hmrs0 Hup Hsh. clearbody m1 mrs0.
  destruct m1' as [|q|q]; try lia.
  destruct (Z.eq_dec (Zpos q) (2 ^ 53)) as [Heq|Hne].
  - (* carry: one more shift *)
    assert (q = 9007199254740992%positive) as -> by lia.
    unfold shr_fexp. rewrite fexp64.
    change (Zdigits2 (Zpos 9007199254740992)) with 54.
    replace (Z.max (54 + (E + n) - 53) (-1074) - (E + n)) with 1 by lia.
    cbn [shr shr_record_of_loc SpecFloat.iter_pos shr_1 shr_m].
    destruct (Z.leb_spec (E + n + 1) (1024 - 53)); [|lia].
    eexists _, _. split; [reflexivity|]. split; [by right|].
    replace (E + n + 1 - E) with (1 + n) by lia.
    rewrite Z.pow_add_r by lia.
    replace (Zpos 4503599627370496 * (2 ^ 1 * 2 ^ n))
      with (9007199254740992 * 2 ^ n) by lia.
    change (2 ^ 53) with 9007199254740992 in *. split; [nia|done].
  - pose proof (digits2_pos_le q 53 ltac:(lia)) as Hdq.
    unfold shr_fexp. simpl Zdigits2. rewrite fexp64. simpl shr_record_of_loc.
    assert (Z.max (Zpos (digits2_pos q) + (E + n) - 53) (-1074) - (E + n) <= 0) as Hn2
      by lia.
    assert (shr {| shr_m := Zpos q; shr_r := false; shr_s := false |} (E + n)
              (Z.max (Zpos (digits2_pos q) + (E + n) - 53) (-1074) - (E + n)) =
            ({| shr_m := Zpos q; shr_r := false; shr_s := false |}, E + n)) as ->.
    { unfold shr. destruct (Z.max _ _ - _); first [done | lia]. }
    simpl shr_m.
    destruct (Z.leb_spec (E + n) (1024 - 53)); [|lia].
    eexists _, _. split; [reflexivity|]. split; [by left|].
    replace (E + n - E) with n by lia. split; [nia|done].
Qed.

Lemma binary_round_int s (p : positive) :
  let d := Zpos (digits2_pos p) in
  d <= 53 ->
  exists mz,
    binary_round 53 1024 s p 0 = S754_finite s mz (d - 53) /\
    Zpos mz = Zpos p * 2 ^ (53 - d) /\
    Zpos (digits2_pos mz) = 53.
Proof.
  intros d Hd. pose proof (digits2_pos_bounds p) as [Hlo Hhi]. fold d in Hlo, Hhi.
  assert (0 < d) as Hd0 by (unfold d; lia).
  unfold binary_round, shl_align. rewrite fexp64. fold d.
  replace (Z.max (d + 0 - 53) (-1074) - 0) with (d - 53) by lia.
  destruct (d - 53) as [|k|k] eqn:Hk; try lia.
  - exists p. replace (Z.max (d + 0 - 53) (-1074)) with 0 by lia.
    rewrite round64_exact by (fold d; lia).
    replace (53 - d) with 0 by lia. rewrite Z.mul_1_r. split; [done|]. split; [done|].
    fold d. lia.
  - exists (Pos.iter xO p k).
    assert (Zpos (Pos.iter xO p k) = Zpos p * 2 ^ (53 - d)) as Hmz.
    { rewrite pos_iter_xO. f_equal. f_equal. lia. }
    assert (Zpos (digits2_pos (Pos.iter xO p k)) = 53) as Hdz.
    { apply digits2_pos_unique. rewrite Hmz.
      assert (0 < 2 ^ (53 - d)) by (apply Z.pow_pos_nonneg; lia).
      replace (2 ^ (53 - 1)) with (2 ^ (d - 1) * 2 ^ (53 - d))
        by (rewrite <- Z.pow_add_r by lia; f_equal; lia).
      replace (2 ^ 53) with (2 ^ d * 2 ^ (53 - d))
        by (rewrite <- Z.pow_add_r by lia; f_equal; lia).
      nia. }
    replace (Z.max (d + 0 - 53) (-1074)) with (Zneg k) by lia.
    rewrite round64_exact by lia. done.
Qed.

(** The product of two 53-bit mantissas, rounded: the result is at most
    one unit in the last place above the exact product. *)
Lemma mul_round_upper s (mx : positive) (ex : Z) (mc : positive) (ec : Z) :
  Zpos (digits2_pos mx) = 53 -> Zpos (digits2_pos mc) = 53 ->
  -1074 <= ex + ec -> ex + ec <= 800 ->
  exists m e,
    round64 s (Zpos (mx * mc)) (ex + ec) loc_Exact = S754_finite s m e /\
    ex + ec + 52 <= e /\
    Zpos m * 2 ^ (e - (ex + ec)) <= Zpos mx * Zpos mc + 2 ^ 53.
Proof.
  intros Hdx Hdc Hlo Hhi.
  pose proof (digits2_pos_bounds mx) as [Hx1 Hx2].
  pose proof (digits2_pos_bounds mc) as [Hc1 Hc2].
  rewrite Hdx in Hx1, Hx2. rewrite Hdc in Hc1, Hc2.
  change (2 ^ (53 - 1)) with 4503599627370496 in *.
  change (2 ^ 53) with 9007199254740992 in *.
  assert (2 ^ 104 <= Zpos (mx * mc) < 2 ^ 106) as HM.
  { rewrite Pos2Z.inj_mul.
    change (2 ^ 104) with (4503599627370496 * 4503599627370496).
    change (2 ^ 106) with (9007199254740992 * 9007199254740992). nia. }
  assert (Zpos (digits2_pos (mx * mc)) = 105 \/ Zpos (digits2_pos (mx * mc)) = 106) as Hd.
  { destruct (Z.lt_ge_cases (Zpos (mx * mc)) (2 ^ 105)).
    - left. apply digits2_pos_unique. change (105 - 1) with 104. lia.
    - right. apply digits2_pos_unique. change (106 - 1) with 105. lia. }
  destruct (round64_bounds s (mx * mc) (ex + ec) loc_Exact) as (m & e & Hbra & He & [_ Hup] & _);
    [lia | lia |].
  exists m, e. split; [done|]. split; [lia|].
  set (n := Z.max 0 (Zpos (digits2_pos (mx * mc)) - 53)) in *.
  assert (0 < 2 ^ n) by (apply Z.pow_pos_nonneg; lia).
  assert (2 ^ n <= 2 ^ 53) by (apply Z.pow_le_mono_r; lia).
  pose proof (Z.mul_div_le (Zpos (mx * mc)) (2 ^ n)).
  rewrite Pos2Z.inj_mul in *.
  change (2 ^ 53) with 9007199254740992 in *. nia.
Qed.

Lemma subsecond_digits (p : positive) :
  Zpos p < 1000000000 -> Zpos (digits2_pos p) <= 30.
Proof.
  intros Hp. pose proof (digits2_pos_bounds p) as [Hlo _].
  destruct (Z.le_gt_cases (Zpos (digits2_pos p)) 30) as [|Hgt]; [done|].
  assert (2 ^ 30 <= 2 ^ (Zpos (digits2_pos p) - 1)) by (apply Z.pow_le_mono_r; lia).
  change (2 ^ 30) with 1073741824 in *. lia.
Qed.

(** A whole number of nanoseconds below one second, times [1e-9]: the
    float64 product is at most [2^-52] above the exact one, and below one. *)
Lemma subsecond_product s (p : positive) :
  Zpos p < 1000000000 ->
  exists m e,
    float64.mul (binary_round 53 1024 s p 0) float64.lit_1e_9 = S754_finite s m e /\
    -82 <= e < 0 /\
    Zpos m * 2 ^ (e + 82) + 2 ^ 52 < 2 ^ 82 /\
    Zpos m < 2 ^ (- e).
Proof.
  intros Hp. pose proof (subsecond_digits p Hp) as Hd.
  pose proof (digits2_pos_bounds p) as [Hlo Hhi].
  destruct (binary_round_int s p) as (mz & -> & Hmz & Hdz); [lia|].
  set (d := Zpos (digits2_pos p)) in *.
  assert (0 < d) as Hd0 by (unfold d; lia).
  unfold float64.mul, float64.lit_1e_9, SFmul. rewrite xorb_false_r.
  destruct (mul_round_upper s mz (d - 53) 4835703278458517 (-82))
    as (m & e & -> & He & Hup); [done | done | lia | lia |].
  exists m, e. split; [done|].
  set (E := d - 53 + -82) in *.
  assert (0 < 2 ^ (53 - d)) as HQ by (apply Z.pow_pos_nonneg; lia).
  assert (2 ^ 53 = 2 ^ d * 2 ^ (53 - d)) as H53
    by (rewrite <- Z.pow_add_r by lia; f_equal; lia).
  assert (2 ^ d <= 2 ^ 30) as Hd30 by (apply Z.pow_le_mono_r; lia).
  assert (2 ^ (e - E) = 2 ^ (e + 82) * 2 ^ (53 - d)) as Hsplit
    by (rewrite <- Z.pow_add_r by lia; f_equal; lia).
  assert (0 < 2 ^ (e + 82)) as Hpe by (apply Z.pow_pos_nonneg; lia).
  assert (Zpos m * 2 ^ (e + 82) <= Zpos p * 4835703278458517 + 2 ^ 30) as Hq.
  { rewrite Hsplit, H53, Hmz in Hup.
    apply (Z.mul_le_mono_pos_r _ _ (2 ^ (53 - d))); [done|]. nia. }
  assert (Zpos p * 4835703278458517 + 2 ^ 30 < 2 ^ 82) as H82
    by (change (2 ^ 30) with 1073741824; change (2 ^ 82) with 4835703278458516698824704; lia).
  assert (e < 0) as Hneg.
  { destruct (Z.lt_ge_cases e 0) as [|Hge]; [done|].
    assert (2 ^ 82 <= 2 ^ (e + 82)) by (apply Z.pow_le_mono_r; lia). nia. }
  split; [lia|]. split.
  { change (2 ^ 30) with 1073741824 in *.
    change (2 ^ 52) with 4503599627370496.
    change (2 ^ 82) with 4835703278458516698824704 in *. lia. }
  assert (2 ^ 82 = 2 ^ (- e) * 2 ^ (e + 82)) as H82'
    by (rewrite <- Z.pow_add_r by lia; f_equal; lia).
  assert (0 < 2 ^ (- e)) by (apply Z.pow_pos_nonneg; lia).
  nia.
Qed.

Lemma trunc_small s (m : positive) (e : Z) :
  e < 0 -> Zpos m < 2 ^ (- e) -> float64.trunc (S754_finite s m e) = Some 0.
Proof.
  intros He Hm. unfold float64.trunc. f_equal.
  rewrite Z.shiftl_div_pow2 by lia.
  rewrite Z.div_small by lia. by destruct s.
Qed.

Lemma shl_align_value (mx : positive) (ex ez : Z) :
  ez <= ex ->
  exists m', shl_align mx ex ez = (m', ez) /\ Zpos m' = Zpos mx * 2 ^ (ex - ez).
Proof.
  intros Hle. unfold shl_align. destruct (ez - ex) as [|k|k] eqn:Hk; try lia.
  - exists mx. replace ez with ex by lia. rewrite Z.sub_diag. split; [done|]. simpl. lia.
  - exists (Pos.iter xO mx k). split; [done|].
    rewrite pos_iter_xO. f_equal. f_equal. lia.
Qed.

Lemma trunc_int_part s (m : positive) (e q : Z) :
  e <= 0 -> q * 2 ^ (- e) <= Zpos m < (q + 1) * 2 ^ (- e) ->
  float64.trunc (S754_finite s m e) = Some (cond_Zopp s q).
Proof.
  intros He [Hlo Hhi]. unfold float64.trunc. f_equal. f_equal.
  rewrite Z.shiftl_div_pow2 by lia.
  assert (0 < 2 ^ (- e)) by (apply Z.pow_pos_nonneg; lia).
  symmetry. apply (Z.div_unique_pos _ _ _ (Zpos m - q * 2 ^ (- e))); lia.
Qed.

Lemma cond_Zopp_add s a b : cond_Zopp s a + cond_Zopp s b = cond_Zopp s (a + b).
Proof. destruct s; simpl; lia. Qed.

(** A whole number below [2^24] plus a fraction that is a little below
    one: the float64 sum has the whole number as its integer part. *)
Lemma add_int_frac s (ps my : positive) (ey : Z) :
  let dx := Zpos (digits2_pos ps) in
  dx <= 24 -> -82 <= ey < 0 ->
  Zpos my * 2 ^ (ey + 82) + 2 ^ (dx + 28) < 2 ^ 82 ->
  float64.trunc (float64.add (binary_round 53 1024 s ps 0) (S754_finite s my ey)) =
    Some (cond_Zopp s (Zpos ps)).
Proof.
  intros dx Hdx Hey Hfrac.
  pose proof (digits2_pos_bounds ps) as [Hlo Hhi]. fold dx in Hlo, Hhi.
  assert (0 < dx) as Hdx0 by (unfold dx; lia).
  destruct (binary_round_int s ps) as (mx & -> & Hmx & Hdmx); [fold dx; lia|].
  fold dx in Hmx |- *.
  unfold float64.add, SFadd.
  set (ex := dx - 53). set (ez := Z.min ex ey).
  assert (-82 <= ez <= ex) as Hez by (unfold ez, ex; lia).
  destruct (shl_align_value mx ex ez) as (ax & -> & Hax); [lia|].
  destruct (shl_align_value my ey ez) as (ay & -> & Hay); [lia|].
  cbn [fst]. rewrite cond_Zopp_add.
  change (Zpos ax + Zpos ay) with (Zpos (ax + ay)).
  set (S := (ax + ay)%positive).
  assert (binary_normalize 53 1024 (cond_Zopp s (Zpos S)) ez false =
          binary_round 53 1024 s S ez) as -> by (by destruct s).
  (* the sum, scaled by [2^-ez] *)
  assert (0 < 2 ^ (- ez)) as Hpz by (apply Z.pow_pos_nonneg; lia).
  assert (0 < 2 ^ (82 + ez)) as Hpz' by (apply Z.pow_pos_nonneg; lia).
  assert (Zpos ax = Zpos ps * 2 ^ (- ez)) as Hax'.
  { rewrite Hax, Hmx, <- Z.mul_assoc, <- Z.pow_add_r by (unfold ex; lia).
    f_equal. f_equal. unfold ex. lia. }
  assert (2 ^ 82 = 2 ^ (- ez) * 2 ^ (82 + ez)) as H82
    by (rewrite <- Z.pow_add_r by lia; f_equal; lia).
  assert (2 ^ (ey + 82) = 2 ^ (ey - ez) * 2 ^ (82 + ez)) as Hey'
    by (rewrite <- Z.pow_add_r by lia; f_equal; lia).
  set (n := dx - ez - 53).
  assert (0 <= n) as Hn by (unfold n, ex in *; lia).
  assert (2 * 2 ^ (dx + 28) = 2 ^ n * 2 ^ (82 + ez)) as Hulp.
  { rewrite <- Z.pow_add_r by lia. replace (n + (82 + ez)) with (1 + (dx + 28))
      by (unfold n; lia). rewrite (Z.pow_add_r 2 1) by lia. lia. }
  assert (0 < 2 ^ n) as Hpn by (apply Z.pow_pos_nonneg; lia).
  assert (2 * Zpos ay + 2 ^ n < 2 * 2 ^ (- ez)) as Hsum.
  { rewrite Hay. rewrite Hey', H82 in Hfrac. nia. }
  assert (Zpos ps * 2 ^ (- ez) <= Zpos S /\
          2 * Zpos S + 2 ^ n < 2 * ((Zpos ps + 1) * 2 ^ (- ez))) as [HSlo HShi].
  { unfold S. rewrite Pos2Z.inj_add, Hax'. lia. }
  assert (Zpos (digits2_pos S) = dx - ez) as HdS.
  { apply digits2_pos_unique.
    replace (2 ^ (dx - ez - 1)) with (2 ^ (dx - 1) * 2 ^ (- ez))
      by (rewrite <- Z.pow_add_r by lia; f_equal; lia).
    replace (2 ^ (dx - ez)) with (2 ^ dx * 2 ^ (- ez))
      by (rewrite <- Z.pow_add_r by lia; f_equal; lia).
    nia. }
  unfold binary_round. rewrite HdS, fexp64.
  replace (Z.max (dx - ez + ez - 53) (-1074)) with ex by (unfold ex; lia).
  assert (shl_align S ez ex = (S, ez)) as ->.
  { unfold shl_align. destruct (ex - ez) eqn:?; first [done | lia]. }
  destruct (round64_bounds s S ez loc_Exact) as (m & e & -> & He & [Hbl _] & Hbu);
    [lia | rewrite HdS; fold n; unfold n; lia |].
  specialize (Hbu eq_refl).
  rewrite HdS in He, Hbl, Hbu. fold n in He, Hbl, Hbu.
  replace (Z.max 0 n) with n in * by lia.
  assert (e < 0) as Heneg by (unfold n in He; lia).
  assert (0 < 2 ^ (e - ez)) as Hpe by (apply Z.pow_pos_nonneg; lia).
  assert (0 < 2 ^ (- e)) as Hpe' by (apply Z.pow_pos_nonneg; lia).
  assert (2 ^ (- ez) = 2 ^ (- e) * 2 ^ (e - ez)) as Hsplit
    by (rewrite <- Z.pow_add_r by lia; f_equal; lia).
  assert (2 ^ (- ez) = 2 ^ (- ez - n) * 2 ^ n) as Hsplit'
    by (rewrite <- Z.pow_add_r by (unfold n; lia); f_equal; lia).
  assert (Zpos ps * 2 ^ (- ez - n) <= Zpos S / 2 ^ n) as Hfloor.
  { apply Z.div_le_lower_bound; [done|]. rewrite Hsplit' in HSlo. lia. }
  apply trunc_int_part; [lia|]. split.
  - apply (Z.mul_le_mono_pos_r _ _ (2 ^ (e - ez))); [done|].
    rewrite <- Z.mul_assoc, <- Hsplit. rewrite Hsplit' at 1. nia.
  - apply (Z.mul_lt_mono_pos_r (2 ^ (e - ez))); [done|].
    rewrite <- Z.mul_assoc, <- Hsplit. nia.
Qed.

Lemma of_int_signed s (p : positive) :
  float64.of_int (cond_Zopp s (Zpos p)) = binary_round 53 1024 s p 0.
Proof. by destruct s. Qed.

Lemma of_int_zero s : float64.of_int (cond_Zopp s 0) = S754_zero false.
Proof. by destruct s. Qed.

Lemma quot_rem_signed s (a : Z) :
  0 <= a ->
  Z.quot (cond_Zopp s a) time.Second = cond_Zopp s (a / time.Second) /\
  Z.rem (cond_Zopp s a) time.Second = cond_Zopp s (a mod time.Second).
Proof.
  intros Ha. unfold time.Second. destruct s; simpl.
  - rewrite Z.quot_opp_l, Z.rem_opp_l by lia.
    rewrite Z.quot_div_nonneg, Z.rem_mod_nonneg by lia. done.
  - rewrite Z.quot_div_nonneg, Z.rem_mod_nonneg by lia. done.
Qed.

Lemma whole_digits (p : positive) :
  Zpos p < 2 ^ 24 -> Zpos (digits2_pos p) <= 24.
Proof. apply digits2_pos_le. Qed.

Lemma trunc_binary_round_int s (p : positive) :
  Zpos (digits2_pos p) <= 53 ->
  float64.trunc (binary_round 53 1024 s p 0) = Some (cond_Zopp s (Zpos p)).
Proof.
  intros Hd. destruct (binary_round_int s p) as (mz & -> & Hmz & _); [done|].
  pose proof (digits2_pos_bounds p) as [_ Hhi].
  assert (0 < 2 ^ (53 - Zpos (digits2_pos p))) by (apply Z.pow_pos_nonneg; lia).
  apply trunc_int_part; [lia|].
  replace (- (Zpos (digits2_pos p) - 53)) with (53 - Zpos (digits2_pos p)) by lia.
  rewrite Hmz. lia.
Qed.

(** A 53-bit mantissa divided by [1e9], rounded: the result is at most
    two units of the quotient's scale above the exact quotient. *)
Lemma div_round_upper s (mz : positive) (ez : Z) :
  Zpos (digits2_pos mz) = 53 -> -52 <= ez <= 0 ->
  exists m e,
    float64.div (S754_finite s mz ez) float64.lit_1e9 = S754_finite s m e /\
    ez - 30 <= e /\
    Zpos m * 2 ^ (e - (ez - 30)) * 8388608000000000 <=
      Zpos mz * 2 ^ 53 + 2 * 8388608000000000.
Proof.
  intros Hdz Hez.
  pose proof (digits2_pos_bounds mz) as [Hlo Hhi]. rewrite Hdz in Hlo, Hhi.
  change (2 ^ (53 - 1)) with 4503599627370496 in Hlo.
  change (2 ^ 53) with 9007199254740992 in Hhi.
  unfold float64.div, float64.lit_1e9, SFdiv, SFdiv_core_binary.
  cbn [Zdigits2]. rewrite Hdz, fexp64, xorb_false_r.
  change (Zpos (digits2_pos 8388608000000000)) with 53.
  replace (Z.min (Z.max (53 + ez - (53 + -23) - 53) (-1074)) (ez - -23))
    with (ez - 30) by lia.
  replace (ez - -23 - (ez - 30)) with 53 by lia.
  cbv iota beta. rewrite Z.shiftl_mul_pow2 by lia.
  change (2 ^ 53) with 9007199254740992.
  pose proof (Z_div_mod (Zpos mz * 9007199254740992) 8388608000000000 ltac:(lia)) as Hdm.
  destruct (Z.div_eucl (Zpos mz * 9007199254740992) 8388608000000000) as [q r].
  destruct Hdm as [Hq Hr].
  assert (0 < q < 2 ^ 54) as Hqb by (change (2 ^ 54) with 18014398509481984; nia).
  destruct q as [|q|q]; try lia.
  pose proof (digits2_pos_le q 54 ltac:(lia)) as Hdq.
  set (l := new_location _ _). clearbody l.
  destruct (round64_bounds s q (ez - 30) l) as (m & e & -> & He & [_ Hup] & _); [lia | lia |].
  exists m, e. split; [done|]. split; [lia|].
  set (n := Z.max 0 (Zpos (digits2_pos q) - 53)) in *.
  assert (0 < 2 ^ n) by (apply Z.pow_pos_nonneg; lia).
  assert (2 ^ n <= 2 ^ 1) by (apply Z.pow_le_mono_r; lia).
  pose proof (Z.mul_div_le (Zpos q) (2 ^ n) ltac:(lia)).
  change (2 ^ 1) with 2 in *. nia.
Qed.

(** A whole number of nanoseconds below one second, divided by [1e9]. *)
Lemma subsecond_quotient s (p : positive) :
  Zpos p < 1000000000 ->
  exists m e,
    float64.div (binary_round 53 1024 s p 0) float64.lit_1e9 = S754_finite s m e /\
    -82 <= e < 0 /\
    Zpos m * 2 ^ (e + 82) + 2 ^ 52 < 2 ^ 82 /\
    Zpos m < 2 ^ (- e).
Proof.
  intros Hp. pose proof (subsecond_digits p Hp) as Hd.
  pose proof (digits2_pos_bounds p) as [Hlo Hhi].
  destruct (binary_round_int s p) as (mz & -> & Hmz & Hdz); [lia|].
  set (d := Zpos (digits2_pos p)) in *.
  assert (0 < d) as Hd0 by (unfold d; lia).
  destruct (div_round_upper s mz (d - 53)) as (m & e & -> & He & Hup); [done | lia |].
  exists m, e. split; [done|].
  assert (0 < 2 ^ (53 - d)) as HQ by (apply Z.pow_pos_nonneg; lia).
  assert (0 < 2 ^ (d - 1)) as HQ' by (apply Z.pow_pos_nonneg; lia).
  assert (2 ^ (d - 1) * 2 <= 2 ^ 30) as Hd30.
  { replace (2 ^ (d - 1) * 2) with (2 ^ d)
      by (replace d with (d - 1 + 1) at 1 by lia; rewrite Z.pow_add_r by lia; done).
    apply Z.pow_le_mono_r; lia. }
  assert (2 ^ (53 - d) * 2 ^ (d - 1) = 2 ^ 52) as H52
    by (rewrite <- Z.pow_add_r by lia; f_equal; lia).
  assert (2 ^ (e + 82) = 2 ^ (e - (d - 53 - 30)) * 2 ^ (d - 1)) as Hsplit
    by (rewrite <- Z.pow_add_r by lia; f_equal; lia).
  assert (0 < 2 ^ (e - (d - 53 - 30))) as Hpe by (apply Z.pow_pos_nonneg; lia).
  assert (0 < 2 ^ (e + 82)) as Hpe' by (apply Z.pow_pos_nonneg; lia).
  assert (Zpos m * 2 ^ (e + 82) * 1000000000 <=
          Zpos p * 2 ^ 82 + 1000000000 * 2 ^ 30) as Hq.
  { apply (Z.mul_le_mono_pos_r _ _ 8388608); [lia|].
    rewrite Hsplit. rewrite Hmz in Hup.
    change (2 ^ 53) with (2 * 2 ^ 52) in Hup. rewrite <- H52 in Hup.
    change (2 ^ 82) with (2 ^ 52 * 2 ^ 30). rewrite <- H52.
    change (2 ^ 30) with 1073741824 in *. nia. }
  assert (Zpos m * 2 ^ (e + 82) + 2 ^ 52 < 2 ^ 82) as H82.
  { change (2 ^ 30) with 1073741824 in *.
    change (2 ^ 52) with 4503599627370496.
    change (2 ^ 82) with 4835703278458516698824704 in *. lia. }
  assert (e < 0) as Hneg.
  { destruct (Z.lt_ge_cases e 0) as [|Hge]; [done|].
    assert (2 ^ 82 <= 2 ^ (e + 82)) by (apply Z.pow_le_mono_r; lia).
    change (2 ^ 52) with 4503599627370496 in *. nia. }
  split; [lia|]. split; [done|].
  assert (2 ^ 82 = 2 ^ (- e) * 2 ^ (e + 82)) as H82'
    by (rewrite <- Z.pow_add_r by lia; f_equal; lia).
  assert (0 < 2 ^ (- e)) by (apply Z.pow_pos_nonneg; lia).
  change (2 ^ 52) with 4503599627370496 in *. nia.
Qed.

(** The seconds of a duration, whichever way the fraction of a second is
    converted: [frac] stands for the multiplication by [1e-9] or the
    division by [1e9]. *)
Section Seconds.
Variable frac : float64.t -> float64.t.
Hypothesis frac_zero : frac (S754_zero false) = S754_zero false.
Hypothesis frac_subsecond : forall s p,
  Zpos p < 1000000000 ->
  exists m e,
    frac (binary_round 53 1024 s p 0) = S754_finite s m e /\
    -82 <= e < 0 /\
    Zpos m * 2 ^ (e + 82) + 2 ^ 52 < 2 ^ 82 /\
    Zpos m < 2 ^ (- e).

(** For a duration of magnitude [a], signed by [s], below [2^24] seconds,
    the integer part of the float64 value is the whole number of
    seconds. *)
Lemma seconds_signed s (a : Z) :
  0 <= a < 2 ^ 24 * time.Second ->
  float64.trunc
    (float64.add (float64.of_int (cond_Zopp s (a / time.Second)))
                 (frac (float64.of_int (cond_Zopp s (a mod time.Second))))) =
  Some (cond_Zopp s (a / time.Second)).
Proof.
  intros Ha.
  assert (0 <= a / time.Second < 2 ^ 24) as Hq.
  { unfold time.Second in *. split; [apply Z.div_pos; lia|].
    apply Z.div_lt_upper_bound; lia. }
  assert (0 <= a mod time.Second < 1000000000) as Hr
    by (unfold time.Second; apply Z.mod_pos_bound; lia).
  destruct (a / time.Second) as [|pq|pq] eqn:Hpq; [| |lia];
    destruct (a mod time.Second) as [|pr|pr] eqn:Hpr; try lia.
  - rewrite of_int_zero, frac_zero. by destruct s.
  - rewrite of_int_zero, of_int_signed.
    destruct (frac_subsecond s pr) as (m & e & -> & He & _ & Hm); [lia|].
    cbn [float64.add SFadd]. rewrite (trunc_small s m e) by lia. by destruct s.
  - rewrite of_int_zero, of_int_signed, frac_zero.
    pose proof (whole_digits pq ltac:(lia)) as Hd.
    destruct (binary_round_int s pq) as (mz & Hx & _); [lia|].
    assert (float64.add (binary_round 53 1024 s pq 0) (S754_zero false) =
            binary_round 53 1024 s pq 0) as -> by (by rewrite Hx).
    apply trunc_binary_round_int. lia.
  - rewrite !of_int_signed.
    pose proof (whole_digits pq ltac:(lia)) as Hd.
    destruct (frac_subsecond s pr) as (m & e & -> & He & Hb & Hm); [lia|].
    apply add_int_frac; [done | lia |].
    assert (2 ^ (Zpos (digits2_pos pq) + 28) <= 2 ^ 52) by (apply Z.pow_le_mono_r; lia).
    lia.
Qed.

Lemma seconds_whole (d : time.Duration) :
  - (2 ^ 24 * time.Second) < d < 2 ^ 24 * time.Second ->
  float64.trunc
    (float64.add (float64.of_int (Z.quot d time.Second))
                 (frac (float64.of_int (Z.rem d time.Second)))) =
  Some (Z.quot d time.Second).
Proof.
  intros Hd. destruct (Z.le_gt_cases 0 d).
  - pose proof (seconds_signed false d ltac:(lia)) as Hs.
    destruct (quot_rem_signed false d) as [Hq Hr]; [lia|].
    simpl in Hs, Hq, Hr. by rewrite Hq, Hr, Hs.
  - pose proof (seconds_signed true (- d) ltac:(lia)) as Hs.
    destruct (quot_rem_signed true (- d)) as [Hq Hr]; [lia|].
    simpl in Hs, Hq, Hr. rewrite Z.opp_involutive in Hq, Hr.
    by rewrite Hq, Hr, Hs.
Qed.
End Seconds.

Lemma Seconds_whole (d : time.Duration) :
  - (2 ^ 24 * time.Second) < d < 2 ^ 24 * time.Second ->
  float64.trunc (time.Seconds d) = Some (Z.quot d time.Second).
Proof.
  apply (seconds_whole (fun x => float64.mul x float64.lit_1e_9)).
  - reflexivity.
  - apply subsecond_product.
Qed.

Lemma Seconds_div_whole (d : time.Duration) :
  - (2 ^ 24 * time.Second) < d < 2 ^ 24 * time.Second ->
  float64.trunc (time.Seconds_div d) = Some (Z.quot d time.Second).
Proof.
  apply (seconds_whole (fun x => float64.div x float64.lit_1e9)).
  - reflexivity.
  - apply subsecond_quotient.
Qed.

(** The two constants are what the compiler makes of [1e9] and [1e-9]:
    the integer itself, and the quotient correctly rounded. *)
Example lit_1e9_exact : float64.lit_1e9 = float64.of_int 1000000000.
Proof. reflexivity. Qed.

Example lit_1e_9_nearest :
  float64.lit_1e_9 = float64.div (float64.of_int 1) float64.lit_1e9.
Proof. reflexivity. Qed.

(** *** The time-to-live of the event registry *)

Lemma New_eventRegistry `{Backend Store}
    (cloudFailure : cloudprovider.Interface -> string -> api.NodeResources -> option error)
    (cachingFailure : minion.Registry -> time.Duration -> Store -> option error)
    (outOfRange : float64.t -> Z) (c : Config) (w : World) (p : Process) :
  eventRegistry (fst (fst (New cloudFailure cachingFailure outOfRange c w p))) =
  event.NewEtcdRegistry (EtcdHelper c)
    (float64.to_uint64 outOfRange (time.Seconds (EventTTL c))).
Proof.
  unfold New. destruct (makeMinionRegistry _ _ c w) as [r w'].
  unfold init. by destruct (newMap _ _).
Qed.

Lemma to_uint64_trunc outOfRange f z :
  float64.trunc f = Some z ->
  float64.to_uint64 outOfRange f =
    if ((0 <=? z) && (z <? 2 ^ 64))%bool then z else outOfRange f.
Proof. intros Hz. unfold float64.to_uint64. by rewrite Hz. Qed.

(** C10, as the code has it.  The time-to-live of the event registry is
    [uint64] of the float64 seconds of the retention duration.  For a
    duration of magnitude below [2^24] seconds the integer part of those
    seconds is the whole number of seconds, rounded toward zero; when it
    is not negative it is the time-to-live, and when it is negative the
    conversion is out of range and yields what the implementation makes
    of it.  So every duration strictly between minus one second and one
    second, negative or not, gives 0; and for a negative duration of one
    second or more, an implementation that wraps around gives [2^64]
    minus the whole number of seconds. *)
Theorem event_ttl_conversion `{Backend Store}
    (cloudFailure : cloudprovider.Interface -> string -> api.NodeResources -> option error)
    (cachingFailure : minion.Registry -> time.Duration -> Store -> option error)
    (outOfRange : float64.t -> Z) (c : Config) (w : World) (p : Process) :
  - (2 ^ 24 * time.Second) < EventTTL c < 2 ^ 24 * time.Second ->
  let ttl := event.ev_ttl
    (eventRegistry (fst (fst (New cloudFailure cachingFailure outOfRange c w p)))) in
  let whole := Z.quot (EventTTL c) time.Second in
  float64.trunc (time.Seconds (EventTTL c)) = Some whole /\
  ttl = (if whole <? 0 then outOfRange (time.Seconds (EventTTL c)) else whole) /\
  (- time.Second < EventTTL c < time.Second -> ttl = 0) /\
  (EventTTL c <= - time.Second ->
   float64.wrapAround (time.Seconds (EventTTL c)) = 2 ^ 64 + whole).
Proof.
  intros Hd ttl whole. subst ttl. rewrite New_eventRegistry. simpl event.ev_ttl.
  pose proof (Seconds_whole (EventTTL c) Hd) as Htr. fold whole in Htr.
  assert (- 2 ^ 24 < whole < 2 ^ 24) as Hw.
  { unfold whole, time.Second in *.
    pose proof (Z.quot_rem' (EventTTL c) 1000000000) as Hqr.
    change (2 ^ 24) with 16777216 in *.
    destruct (Z.le_gt_cases 0 (EventTTL c)).
    - pose proof (Z.rem_bound_pos (EventTTL c) 1000000000 ltac:(lia) ltac:(lia)) as Hrb. lia.
    - pose proof (Z.rem_bound_pos_neg (EventTTL c) 1000000000 ltac:(lia) ltac:(lia)) as Hrb. lia. }
  assert (float64.to_uint64 outOfRange (time.Seconds (EventTTL c)) =
          if whole <? 0 then outOfRange (time.Seconds (EventTTL c)) else whole) as Httl.
  { rewrite (to_uint64_trunc _ _ _ Htr).
    change (2 ^ 24) with 16777216 in *. change (2 ^ 64) with 18446744073709551616 in *.
    destruct (Z.ltb_spec whole 0), (Z.leb_spec 0 whole),
      (Z.ltb_spec whole 18446744073709551616); simpl; first [done | lia]. }
  split; [done|]. split; [done|]. split.
  - intros Hsub. rewrite Httl.
    assert (whole = 0) as ->; [|done].
    unfold whole, time.Second in *. apply Z.quot_small_iff; lia.
  - intros Hneg. unfold float64.wrapAround. rewrite Htr.
    assert (whole <= -1) as Hw1.
    { unfold whole, time.Second in *.
      pose proof (Z.quot_rem' (EventTTL c) 1000000000) as Hqr.
      pose proof (Z.rem_bound_pos_neg (EventTTL c) 1000000000 ltac:(lia) ltac:(lia)) as Hrb. lia. }
    change (2 ^ 24) with 16777216 in *.
    change (2 ^ 64) with 18446744073709551616 in *.
    symmetry. apply (Z.mod_unique_pos _ _ (-1)); lia.
Qed.

Lemma event_ttl_conversion_witness :
  event.ev_ttl
    (eventRegistry (fst (fst (New neverFails neverFails float64.wrapAround twoNodes
                                  (emptyWorld []) emptyProcess)))) = 172800.
Proof.
  destruct (event_ttl_conversion neverFails neverFails float64.wrapAround twoNodes
              (emptyWorld []) emptyProcess) as (_ & Httl & _).
  - vm_compute. split; reflexivity.
  - exact Httl.
Defined.

(** C10 at two concrete inputs.  A retention of minus half a second is
    negative, and its time-to-live is 0, not a value that wrapped around,
    whatever the implementation makes of conversions out of range.  A
    retention of 16777216.999999999 seconds has the time-to-live 16777217:
    the float64 sum rounds up to the next second before the fraction is
    discarded. *)
Lemma negative_subsecond_ttl_is_zero :
  (let c := withEventTTL twoNodes (-500000000) in
   EventTTL c < 0 /\
   float64.trunc (time.Seconds (EventTTL c)) = Some 0 /\
   (forall outOfRange,
      event.ev_ttl
        (eventRegistry (fst (fst (New neverFails neverFails outOfRange c
                                      (emptyWorld []) emptyProcess)))) = 0) /\
   ~ (2 ^ 63 <=
      event.ev_ttl
        (eventRegistry (fst (fst (New neverFails neverFails float64.wrapAround c
                                      (emptyWorld []) emptyProcess)))))) /\
  (let c := withEventTTL twoNodes 16777216999999999 in
   Z.quot (EventTTL c) time.Second = 16777216 /\
   forall outOfRange,
     event.ev_ttl
       (eventRegistry (fst (fst (New neverFails neverFails outOfRange c
                                     (emptyWorld []) emptyProcess)))) = 16777217).
Proof.
  split.
  - intros c.
    assert (forall outOfRange,
       event.ev_ttl
         (eventRegistry (fst (fst (New neverFails neverFails outOfRange c
                                       (emptyWorld []) emptyProcess)))) = 0) as Hz.
    { intros outOfRange. rewrite New_eventRegistry. reflexivity. }
    split; [reflexivity|]. split; [reflexivity|]. split; [done|].
    rewrite Hz. intros Hle. by apply Hle.
  - intros c. split; [reflexivity|].
    intros outOfRange. rewrite New_eventRegistry. reflexivity.
Qed.

(** The theorem's range is as wide as it can be: one nanosecond below
    [2^24] seconds the integer part is still the whole number of seconds,
    and at 16777216.999999999 seconds the float64 sum has rounded up to
    the next second, with either form of [Seconds]. *)
Example seconds_round_up :
  float64.trunc (time.Seconds 16777216999999999) = Some 16777217 /\
  float64.trunc (time.Seconds_div 16777216999999999) = Some 16777217 /\
  Z.quot 16777216999999999 time.Second = 16777216.
Proof. repeat split; reflexivity. Qed.

Example seconds_below_range_end :
  float64.trunc (time.Seconds (2 ^ 24 * time.Second - 1)) = Some (2 ^ 24 - 1).
Proof. reflexivity. Qed.

(** Minus one second under the two implementations of the conversion out
    of range. *)
Example minus_one_second :
  float64.to_uint64 float64.wrapAround (time.Seconds (- time.Second)) = 2 ^ 64 - 1 /\
  float64.to_uint64 float64.saturate (time.Seconds (- time.Second)) = 0.
Proof. split; reflexivity. Qed.

(** ** A run of the whole assembly *)

(** [New] on the two-node configuration: one goroutine, the refresh of the
    pod cache every 30 seconds; the storage map at the first address; and
    an exporter call that returns a second map object with seven entries,
    the node adapter among them. *)
Example New_two_nodes :
  let '(m, w, p) :=
    New neverFails neverFails float64.wrapAround twoNodes (emptyWorld [])
        emptyProcess in
  goroutines p =
    [util.Forever (util.UpdateAllContainers
                     (NewPodCache (PodInfoGetter twoNodes) (podRegistry m)))
                  30000000000] /\
  event.ev_ttl (eventRegistry m) = 172800 /\
  storage m = Some 1%positive /\
  let '((storage', codec, root, _), p') := API_v1beta2 m p in
  storage' = 2%positive /\
  codec = v1beta2.Codec /\
  root = "/api/v1beta1" /\
  size (entriesOf (Some storage') p') = 7%nat /\
  entriesOf (Some storage') p' !! "minions" =
    Some (apiserver.Minions (minion.NewREST (minionRegistry m))).
Proof. vm_compute. repeat split; reflexivity. Qed.

(** ** More on the node registry builder *)

Section NodeRegistryPaths.
Context {Store : Type} `{Backend Store}.
Variable cloudFailure :
  cloudprovider.Interface -> string -> api.NodeResources -> option error.
Variable cachingFailure :
  minion.Registry -> time.Duration -> Store -> option error.

Lemma baseStep_cloud c w cloud :
  Cloud c = Some cloud ->
  (0 < String.length (MinionRegexp c))%nat ->
  cloudFailure cloud (MinionRegexp c) (NodeResources c) = None ->
  baseStep cloudFailure c w =
    (minion.CloudRegistry cloud (MinionRegexp c) (NodeResources c), w).
Proof.
  intros Hcloud Hlen Hok. apply Nat.ltb_lt in Hlen.
  unfold baseStep. by rewrite Hcloud, Hlen, Hok.
Qed.

(** X1.  With a cloud integration, a non-empty pattern and a cloud
    registry that could be built, the chain the builder returns is based
    on that cloud registry, and the builder writes nothing to the storage
    backend: the explicit node identifiers are not submitted, not one
    creation call reaches the backend. *)
Theorem cloud_path_creates_nothing (c : Config) (w : World)
    (cloud : cloudprovider.Interface) :
  Cloud c = Some cloud ->
  (0 < String.length (MinionRegexp c))%nat ->
  cloudFailure cloud (MinionRegexp c) (NodeResources c) = None ->
  base (fst (makeMinionRegistry cloudFailure cachingFailure c w)) =
    minion.CloudRegistry cloud (MinionRegexp c) (NodeResources c) /\
  backend (snd (makeMinionRegistry cloudFailure cachingFailure c w)) = backend w /\
  snd (backend (snd
    (makeMinionRegistry (H:=recording H) cloudFailure (onRecorded cachingFailure) c
       {| backend := (backend w, []); log := log w |}))) = [].
Proof.
  intros Hcloud Hlen Hok. split; [|split].
  - rewrite makeMinionRegistry_steps, cacheStep_base; simpl.
    by rewrite base_healthLayer, (baseStep_cloud c w cloud).
  - rewrite makeMinionRegistry_steps, cacheStep_backend; simpl.
    by rewrite (baseStep_cloud c w cloud).
  - rewrite makeMinionRegistry_steps, cacheStep_backend; simpl.
    apply Nat.ltb_lt in Hlen. unfold baseStep. by rewrite Hcloud, Hlen, Hok.
Qed.

Lemma baseStep_log c w :
  log (snd (baseStep cloudFailure c w)) = log w \/
  exists e, log (snd (baseStep cloudFailure c w)) = log w ++ [cloudLine e].
Proof.
  unfold baseStep. destruct (Cloud c); [|by left].
  destruct (0 <? _)%nat; [|by left].
  destruct (cloudFailure _ _ _) as [e|]; [right; by exists e | by left].
Qed.

(** X6.  The builder only appends to the log, and at most two lines: the
    line of a cloud registry that could not be built, then the line of a
    cache that could not be built, each at most once and in this order. *)
Theorem log_append_only (c : Config) (w : World) :
  exists lines,
    log (snd (makeMinionRegistry cloudFailure cachingFailure c w)) = log w ++ lines /\
    (lines = [] \/ lines = [cacheLine] \/
     exists e, lines = [cloudLine e] \/ lines = [cloudLine e; cacheLine]).
Proof.
  rewrite makeMinionRegistry_steps. unfold cacheStep; simpl.
  destruct (baseStep_log c w) as [Hb|[e Hb]].
  - destruct (0 <? MinionCacheTTL c)%Z; [destruct (cachingFailure _ _ _)|]; simpl;
      rewrite Hb.
    + exists [cacheLine]. split; [done|]. right. by left.
    + exists []. rewrite app_nil_r. split; [done|]. by left.
    + exists []. rewrite app_nil_r. split; [done|]. by left.
  - destruct (0 <? MinionCacheTTL c)%Z; [destruct (cachingFailure _ _ _)|]; simpl;
      rewrite Hb.
    + exists [cloudLine e; cacheLine]. rewrite <- app_assoc. split; [done|].
      right. right. exists e. by right.
    + exists [cloudLine e]. split; [done|]. right. right. exists e. by left.
    + exists [cloudLine e]. split; [done|]. right. right. exists e. by left.
Qed.

Lemma app_cons_neq {A} (l l' : list A) x : l ++ x :: l' <> l.
Proof.
  intros Heq. apply (f_equal length) in Heq.
  rewrite length_app in Heq. simpl in Heq. lia.
Qed.

(** X5.  The builder logs nothing exactly when the chain it returns has
    the shape the configuration asks for: the cloud registry at the base
    when a cloud integration and a pattern are given and the static
    registry otherwise, the health-checking layer when asked for, the
    caching layer when the interval is above zero.  The static registry in
    place of the cloud registry and a missing caching layer each leave a
    line in the log, and a line in the log means one of the two.  This is
    about the shape of the chain and the two constructors only: it says
    nothing about the node creations of the static path, whose errors are
    not logged. *)
Theorem silent_iff_as_requested (c : Config) (w : World) :
  log (snd (makeMinionRegistry cloudFailure cachingFailure c w)) = log w <->
  fst (makeMinionRegistry cloudFailure cachingFailure c w) = requestedChain c.
Proof.
  rewrite makeMinionRegistry_steps.
  unfold cacheStep, baseStep, requestedChain, requestedBase, healthLayer; simpl.
  destruct (Cloud c) as [cloud|]; [destruct (0 <? String.length _)%nat;
    [destruct (cloudFailure _ _ _) as [e|]|]|];
  (destruct (0 <? MinionCacheTTL c)%Z; [destruct (cachingFailure _ _ _)|]); simpl;
  destruct (HealthCheckMinions c); split; intros Heq; try done;
  try (by (exfalso; eapply app_cons_neq; eauto));
  try (rewrite <- app_assoc in Heq; simpl in Heq; exfalso; eapply app_cons_neq; eauto).
Qed.

End NodeRegistryPaths.

Section NodeRegistryOracles.
Context {Store : Type} `{Backend Store}.

Lemma baseStep_no_cloud cf cf' c (w : World) :
  Cloud c = None \/ MinionRegexp c = "" ->
  baseStep cf c w = baseStep cf' c w /\ staticPath cf c = true.
Proof.
  unfold baseStep, staticPath. intros [-> | ->]; [done|].
  by destruct (Cloud c).
Qed.

(** X2.  The cloud registry is attempted only with both a cloud
    integration and a non-empty pattern: when either is missing the
    constructor of the cloud registry is not consulted, so whether it
    would fail makes no difference, and the builder takes the static path:
    the chain is based on the static registry, every explicit node
    identifier is submitted to the backend as a node with the configured
    resources, once and in order, and the backend the builder leaves is
    the outcome of these creations. *)
Theorem cloud_needs_handle_and_pattern
    (cloudFailure cloudFailure' :
       cloudprovider.Interface -> string -> api.NodeResources -> option error)
    (cachingFailure : minion.Registry -> time.Duration -> Store -> option error)
    (c : Config) (w : World) :
  Cloud c = None \/ MinionRegexp c = "" ->
  makeMinionRegistry cloudFailure cachingFailure c w =
    makeMinionRegistry cloudFailure' cachingFailure c w /\
  base (fst (makeMinionRegistry cloudFailure cachingFailure c w)) =
    minion.EtcdRegistry (etcd.NewRegistry (EtcdHelper c) etcd.NilFactory) /\
  (let recorded :=
     backend (snd
       (makeMinionRegistry (H:=recording H) cloudFailure (onRecorded cachingFailure) c
          {| backend := (backend w, []); log := log w |})) in
   map fst (snd recorded) =
     map (fun minionID =>
            {| api.TypeMeta_ := {| api.ID := minionID |};
               api.NodeResources_ := NodeResources c |}) (Minions c) /\
   fst recorded =
     backend (snd (makeMinionRegistry cloudFailure cachingFailure c w))).
Proof.
  intros Hcase.
  destruct (baseStep_no_cloud cloudFailure cloudFailure' c w Hcase) as [Hb Hs].
  destruct (baseStep_static cloudFailure c w Hs) as [Hbase Hback].
  split; [by rewrite !makeMinionRegistry_steps, Hb|]. split.
  - rewrite makeMinionRegistry_steps, cacheStep_base; simpl.
    by rewrite base_healthLayer, Hbase.
  - cbn zeta. rewrite !makeMinionRegistry_steps, !cacheStep_backend; simpl.
    rewrite Hback.
    destruct (baseStep_static (H:=recording H) cloudFailure c
                {| backend := (backend w, []); log := log w |} Hs) as [_ ->].
    simpl.
    by destruct (createMinions_recording (staticRegistry c) c (Minions c)
                   (backend w) []) as [-> ->].
Qed.

Lemma layers_healthLayer c r :
  layers (healthLayer c r) =
  (if HealthCheckMinions c then [Healthy http.ZeroClient] else []) ++ layers r.
Proof. unfold healthLayer. by destruct (HealthCheckMinions c). Qed.

Lemma layers_baseStep cf c (w : World) : layers (fst (baseStep cf c w)) = [].
Proof.
  unfold baseStep. destruct (Cloud c); [|done].
  destruct (0 <? _)%nat; [|done]. by destruct (cf _ _ _).
Qed.

(** X3.  The decorators of the chain the builder returns, outermost
    first: a caching layer with the configured interval or none, and none
    unless the interval is above zero; then the health-checking layer over
    the zero HTTP client, which is there exactly when the configuration
    asks for health checks, whether the base is static or the cloud's;
    and nothing else. *)
Theorem decorators_of_chain
    (cloudFailure :
       cloudprovider.Interface -> string -> api.NodeResources -> option error)
    (cachingFailure : minion.Registry -> time.Duration -> Store -> option error)
    (c : Config) (w : World) :
  exists cachePart,
    layers (fst (makeMinionRegistry cloudFailure cachingFailure c w)) =
      cachePart ++
      (if HealthCheckMinions c then [Healthy http.ZeroClient] else []) /\
    (cachePart = [] \/
     (cachePart = [Cached (MinionCacheTTL c)] /\ (0 < MinionCacheTTL c)%Z)).
Proof.
  rewrite makeMinionRegistry_steps. unfold cacheStep; simpl.
  destruct (Z.ltb_spec 0 (MinionCacheTTL c)) as [Hpos|Hnot];
    [destruct (cachingFailure _ _ _)|]; simpl;
    rewrite layers_healthLayer, layers_baseStep, app_nil_r.
  - exists []. split; [done | by left].
  - exists [Cached (MinionCacheTTL c)]. split; [done | by right].
  - exists []. split; [done | by left].
Qed.

(** X4.  A node-cache interval of zero or below, negative ones included,
    switches the cache off: the constructor of the caching registry is not
    consulted, the builder does what it does with the interval set to
    zero, and the chain has no caching layer. *)
Theorem cache_off_when_ttl_not_positive
    (cloudFailure :
       cloudprovider.Interface -> string -> api.NodeResources -> option error)
    (cachingFailure cachingFailure' :
       minion.Registry -> time.Duration -> Store -> option error)
    (c : Config) (w : World) :
  (MinionCacheTTL c <= 0)%Z ->
  makeMinionRegistry cloudFailure cachingFailure c w =
    makeMinionRegistry cloudFailure cachingFailure' (withoutCache c) w /\
  cacheFree (fst (makeMinionRegistry cloudFailure cachingFailure c w)) = true.
Proof.
  intros Httl. apply Z.ltb_ge in Httl.
  rewrite makeMinionRegistry_withoutCache, makeMinionRegistry_steps.
  unfold cacheStep. rewrite Httl. split; [done|]. simpl.
  by rewrite cacheFree_healthLayer, baseStep_cacheFree.
Qed.

Lemma baseStep_fields cf c c' (w : World) :
  Cloud c = Cloud c' -> MinionRegexp c = MinionRegexp c' ->
  Minions c = Minions c' -> NodeResources c = NodeResources c' ->
  EtcdHelper c = EtcdHelper c' ->
  baseStep cf c w = baseStep cf c' w.
Proof.
  intros Hc Hre Hm Hres Hh. unfold baseStep, staticRegistry.
  rewrite Hc, Hre, Hm, Hres, Hh.
  by rewrite (createMinions_resources _ c c' _ _ Hres).
Qed.

(** X7.  Health checking and caching never reach the storage backend:
    two configurations that agree on the cloud integration, the pattern,
    the node identifiers, the node resources and the etcd helper leave the
    same backend and have the same base registry, whatever their
    health-check toggles and cache intervals are and whether or not the
    caching registry can be built. *)
Theorem decorators_leave_backend
    (cloudFailure :
       cloudprovider.Interface -> string -> api.NodeResources -> option error)
    (cachingFailure cachingFailure' :
       minion.Registry -> time.Duration -> Store -> option error)
    (c c' : Config) (w : World) :
  Cloud c = Cloud c' -> MinionRegexp c = MinionRegexp c' ->
  Minions c = Minions c' -> NodeResources c = NodeResources c' ->
  EtcdHelper c = EtcdHelper c' ->
  backend (snd (makeMinionRegistry cloudFailure cachingFailure c w)) =
    backend (snd (makeMinionRegistry cloudFailure cachingFailure' c' w)) /\
  base (fst (makeMinionRegistry cloudFailure cachingFailure c w)) =
    base (fst (makeMinionRegistry cloudFailure cachingFailure' c' w)).
Proof.
  intros Hc Hre Hm Hres Hh.
  rewrite !makeMinionRegistry_steps, !cacheStep_backend, !cacheStep_base; simpl.
  rewrite !base_healthLayer.
  by rewrite (baseStep_fields cloudFailure c c' w Hc Hre Hm Hres Hh).
Qed.

End NodeRegistryOracles.

(** ** More on the exporters *)

(** X12.  An exporter, on any master and in any state of the process,
    allocates one map object at an address that was free, fills it with
    the entries the master's map has at the time of the call, leaves every
    other map object and the master's own entries as they were, and starts
    no goroutine. *)
Theorem export_allocates_one_copy (v : Version) (m : Master) (p : Process) :
  let l := exported v m p in
  let p' := snd (export v m p) in
  heap p !! l = None /\
  heap p' !! l = Some (entriesOf (storage m) p) /\
  (forall l', l' <> l -> heap p' !! l' = heap p !! l') /\
  entriesOf (storage m) p' = entriesOf (storage m) p /\
  goroutines p' = goroutines p.
Proof.
  intros l p'. destruct (export_heap v m p) as [Hfresh Hheap].
  fold l in Hfresh, Hheap. fold p' in Hheap.
  split; [done|]. split; [by rewrite Hheap, lookup_insert_eq|].
  split; [intros l' Hne; by rewrite Hheap, lookup_insert_ne|]. split.
  - destruct (storage m) as [l0|] eqn:Hst; [|done].
    unfold entriesOf in *. rewrite Hheap.
    destruct (decide (l = l0)) as [<-|Hne].
    + by rewrite lookup_insert_eq.
    + by rewrite lookup_insert_ne.
  - unfold p'. destruct (export_spec v m p) as [_ ->].
    by destruct (copyStorage_spec m p) as (_ & _ & ->).
Qed.

(** X13.  On a master whose [init] has not run, the storage map is [nil]:
    an exporter then returns a new map object that is empty, and changes
    nothing else on the heap. *)
Theorem export_before_init (v : Version) (m : Master) (p : Process) :
  storage m = None ->
  heap (snd (export v m p)) !! exported v m p = Some ∅ /\
  heap (snd (export v m p)) = <[exported v m p := ∅]> (heap p).
Proof.
  intros Hnil. destruct (export_heap v m p) as [_ ->].
  rewrite Hnil. simpl. by rewrite lookup_insert_eq.
Qed.


Lemma step_alloc p0 m st s : allocInv p0 st -> allocInv p0 (step m st s).
Proof.
  intros (Hnd & Hdom & Hnew). destruct s as [v | i k h | i k]; simpl.
  - pose proof (export_heap v m (proc st)) as [Hfresh Hheap].
    unfold exported in *.
    destruct (export v m (proc st)) as [[[[l cdc] root] sl] p']. simpl in *.
    apply not_elem_of_dom in Hfresh. rewrite Hdom in Hfresh.
    unfold allocInv; simpl. split; [|split].
    + apply NoDup_app. split; [done|]. split; [|apply NoDup_singleton].
      intros l' Hin ->%list_elem_of_singleton. apply Hfresh.
      apply elem_of_union_r. by apply elem_of_list_to_set.
    + rewrite Hheap, dom_insert_L, Hdom, list_to_set_app_L.
      set_unfold. intros x. tauto.
    + intros l' [Hin| ->%list_elem_of_singleton]%elem_of_app; [by apply Hnew|].
      intros Hl. apply Hfresh. by apply elem_of_union_l.
  - destruct (returned st !! i); [|done].
    unfold allocInv, mapStore; simpl. by rewrite dom_alter_L.
  - destruct (returned st !! i); [|done].
    unfold allocInv, mapDelete; simpl. by rewrite dom_alter_L.
Qed.

Lemma run_alloc p0 m steps st : allocInv p0 st -> allocInv p0 (run m steps st).
Proof.
  revert st. induction steps as [|s steps IH]; intros st Hinv; simpl; [done|].
  apply IH. by apply step_alloc.
Qed.

Lemma run_calls m steps st :
  length (returned (run m steps st)) = (length (returned st) + callsIn steps)%nat.
Proof.
  revert st. induction steps as [|s steps IH]; intros st; unfold callsIn; simpl.
  - lia.
  - fold (run m steps (step m st s)). rewrite IH. unfold callsIn.
    destruct s as [v | i k h | i k]; simpl.
    + destruct (export v m (proc st)) as [[[[l cdc] root] sl] p']. simpl.
      rewrite length_app. simpl. lia.
    + by destruct (returned st !! i).
    + by destruct (returned st !! i).
Qed.

Lemma allocInv_fresh p : allocInv p (freshCaller p).
Proof.
  unfold allocInv, freshCaller; simpl. split; [apply NoDup_nil_2|].
  split; [set_unfold; intros x; tauto|]. intros l Hin. by apply not_elem_of_nil in Hin.
Qed.

(** X14.  Whatever a caller does, on any master: the maps it was
    returned are pairwise distinct objects, one per exporter call, each at
    an address that was free when the caller started and allocated since;
    and the heap has grown by exactly one map object per call. *)
Theorem returned_maps_distinct (m : Master) (p : Process)
    (steps : list CallerStep) :
  let st := run m steps (freshCaller p) in
  NoDup (returned st) /\
  length (returned st) = callsIn steps /\
  (forall l, l ∈ returned st -> heap p !! l = None /\ is_Some (heap (proc st) !! l)) /\
  size (dom (heap (proc st))) = (size (dom (heap p)) + callsIn steps)%nat.
Proof.
  intros st.
  destruct (run_alloc p m steps _ (allocInv_fresh p)) as (Hnd & Hdom & Hnew). fold st in Hnd, Hdom, Hnew.
  pose proof (run_calls m steps (freshCaller p)) as Hlen. fold st in Hlen.
  simpl in Hlen. split; [done|]. split; [done|]. split.
  - intros l Hin. split; [by apply not_elem_of_dom, Hnew|].
    apply elem_of_dom. rewrite Hdom.
    apply elem_of_union_r. by apply elem_of_list_to_set.
  - rewrite Hdom, size_union.
    2:{ intros l Hl Hr. apply elem_of_list_to_set in Hr. by apply (Hnew l). }
    by rewrite size_list_to_set, Hlen.
Qed.

Lemma views_alter (f : storageMap -> storageMap) st i l :
  NoDup (returned st) ->
  Forall (fun l => is_Some (heap (proc st) !! l)) (returned st) ->
  returned st !! i = Some l ->
  views {| proc := {| heap := alter f l (heap (proc st));
                      goroutines := goroutines (proc st) |};
           returned := returned st |} =
  alter f i (views st).
Proof.
  intros Hnd Hall Hi. unfold views; simpl. apply list_eq. intros j.
  rewrite list_lookup_alter, !list_lookup_fmap.
  destruct (decide (i = j)) as [<-|Hne].
  - rewrite Hi. simpl. rewrite lookup_alter_eq.
    assert (is_Some (heap (proc st) !! l)) as [x ->]; [|done].
    eapply (proj1 (Forall_forall _ _) Hall), list_elem_of_lookup_2; eauto.
  - destruct (returned st !! j) as [l'|] eqn:Hj; [|done]. simpl.
    rewrite lookup_alter_ne; [done|].
    intros ->. apply Hne. by apply (NoDup_lookup _ _ _ _ Hnd Hi Hj).
Qed.

Lemma views_out_of_range (f : storageMap -> storageMap) st i :
  returned st !! i = None -> alter f i (views st) = views st.
Proof.
  intros Hi. apply list_eq. intros j. rewrite list_lookup_alter.
  destruct (decide (i = j)) as [<-|]; [|done].
  unfold views. by rewrite list_lookup_fmap, Hi.
Qed.

Lemma step_views m l0 M p0 st s :
  storage m = Some l0 -> callerInv l0 M st -> allocInv p0 st ->
  views (step m st s) = valueStep M (views st) s.
Proof.
  intros Hm (Hl0 & Hnot & Hall) (Hnd & _ & _).
  destruct s as [v | i k h | i k]; simpl.
  - pose proof (export_heap v m (proc st)) as [Hfresh Hheap].
    unfold exported in *.
    destruct (export v m (proc st)) as [[[[l cdc] root] sl] p']. simpl in *.
    assert (entriesOf (storage m) (proc st) = M) as HM
      by (rewrite Hm; unfold entriesOf; by rewrite Hl0).
    unfold views; simpl. rewrite fmap_app, Hheap, HM. f_equal.
    + apply list_fmap_ext. intros j l' Hj. simpl.
      rewrite lookup_insert_ne; [done|]. intros <-.
      assert (is_Some (heap (proc st) !! l)) as [x Hx]; [|congruence].
      eapply (proj1 (Forall_forall _ _) Hall), list_elem_of_lookup_2; eauto.
    + simpl. by rewrite lookup_insert_eq.
  - destruct (returned st !! i) as [l|] eqn:Hi.
    + by apply views_alter.
    + by rewrite views_out_of_range.
  - destruct (returned st !! i) as [l|] eqn:Hi.
    + by apply views_alter.
    + by rewrite views_out_of_range.
Qed.

Lemma run_views m l0 M p0 steps st :
  storage m = Some l0 -> callerInv l0 M st -> allocInv p0 st ->
  views (run m steps st) = fold_left (valueStep M) steps (views st).
Proof.
  intros Hm. revert st. induction steps as [|s steps IH]; intros st Hinv Halloc; simpl.
  - done.
  - fold (run m steps (step m st s)).
    rewrite IH by (by apply step_inv || by apply step_alloc).
    by rewrite (step_views m l0 M p0).
Qed.

(** X15.  After [init], the maps a caller holds behave as if they were
    held by value: what the caller sees in them after any sequence of
    calls, stores and deletions is what the same sequence yields on
    separate maps, where each call yields the master's entries and a store
    or a deletion changes the one map it addresses. *)
Theorem callers_hold_private_copies (m0 : Master)
    (cloud : option cloudprovider.Interface)
    (podInfoGetter : client.PodInfoGetter) (p0 : Process)
    (steps : list CallerStep) :
  let m := fst (init m0 cloud podInfoGetter p0) in
  let p := snd (init m0 cloud podInfoGetter p0) in
  views (run m steps (freshCaller p)) =
    fold_left (valueStep (entriesOf (storage m) p)) steps [].
Proof.
  intros m p.
  destruct (init_inv m0 cloud podInfoGetter p0) as (l & M & Hst & _ & Hent & Hinv).
  fold m in Hst, Hent. fold p in Hent, Hinv. rewrite Hent.
  apply (run_views m l M p steps _ Hst Hinv (allocInv_fresh p)).
Qed.

(** ** More on [init] and [New] *)

Lemma init_storage m cloud podInfoGetter p :
  storage (fst (init m cloud podInfoGetter p)) =
    Some (fresh (dom (heap p))) /\
  heap p !! fresh (dom (heap p)) = None /\
  (forall l, l <> fresh (dom (heap p)) ->
     heap (snd (init m cloud podInfoGetter p)) !! l = heap p !! l).
Proof.
  unfold init, newMap, go; simpl. split; [done|]. split.
  - apply not_elem_of_dom, is_fresh.
  - intros l Hne. by rewrite lookup_insert_ne.
Qed.


Section NewFacts.
Context {Store : Type} `{Backend Store}.
Variable cloudFailure :
  cloudprovider.Interface -> string -> api.NodeResources -> option error.
Variable cachingFailure :
  minion.Registry -> time.Duration -> Store -> option error.
Variable outOfRange : float64.t -> Z.

(** [New] is [makeMinionRegistry], then the record of registries, then
    [init]. *)
Lemma New_init c (w : World) p :
  New cloudFailure cachingFailure outOfRange c w p =
  let built := makeMinionRegistry cloudFailure cachingFailure c w in
  let serviceRegistry := etcd.NewRegistry (EtcdHelper c) etcd.NilFactory in
  let manifestFactory := etcd.BasicManifestFactory serviceRegistry in
  let m :=
    {| podRegistry := etcd.NewRegistry (EtcdHelper c) manifestFactory;
       controllerRegistry := etcd.NewRegistry (EtcdHelper c) etcd.NilFactory;
       serviceRegistry := serviceRegistry;
       endpointRegistry := etcd.NewRegistry (EtcdHelper c) etcd.NilFactory;
       bindingRegistry := etcd.NewRegistry (EtcdHelper c) manifestFactory;
       eventRegistry :=
         event.NewEtcdRegistry (EtcdHelper c)
           (float64.to_uint64 outOfRange (time.Seconds (EventTTL c)));
       minionRegistry := fst built;
       storage := None;
       client_ := Client c |} in
  (fst (init m (Cloud c) (PodInfoGetter c) p), snd built,
   snd (init m (Cloud c) (PodInfoGetter c) p)).
Proof.
  unfold New. destruct (makeMinionRegistry _ _ c w) as [r w'].
  cbn zeta. cbn [fst snd]. by destruct (init _ _ _ _).
Qed.

(** X9.  The master [New] returns: the service, controller and endpoint
    registries are bound to the etcd helper of the configuration, without
    manifest factory; the pod registry and the binding registry are bound
    to it with a manifest factory over the master's service registry; the
    event registry is bound to it; the node registry is the chain
    [makeMinionRegistry] returned; the client is the configured one.  The
    handler map serves that node chain under ["minions"], hands it with
    the configured cloud to the service adapter, and serves the pod
    registry with a pod cache over it under ["pods"]. *)
Theorem New_wiring (c : Config) (w : World) (p : Process) :
  let m := fst (fst (New cloudFailure cachingFailure outOfRange c w p)) in
  let p' := snd (New cloudFailure cachingFailure outOfRange c w p) in
  let nodes := fst (makeMinionRegistry cloudFailure cachingFailure c w) in
  (serviceRegistry m = etcd.NewRegistry (EtcdHelper c) etcd.NilFactory /\
   controllerRegistry m = etcd.NewRegistry (EtcdHelper c) etcd.NilFactory /\
   endpointRegistry m = etcd.NewRegistry (EtcdHelper c) etcd.NilFactory /\
   podRegistry m =
     etcd.NewRegistry (EtcdHelper c) (etcd.BasicManifestFactory (serviceRegistry m)) /\
   bindingRegistry m = podRegistry m /\
   event.ev_helper (eventRegistry m) = EtcdHelper c /\
   minionRegistry m = nodes /\
   client_ m = Client c) /\
  (entriesOf (storage m) p' !! "minions" =
     Some (apiserver.Minions (minion.NewREST nodes)) /\
   entriesOf (storage m) p' !! "services" =
     Some (apiserver.Services
             (service.NewREST (serviceRegistry m) (Cloud c) nodes)) /\
   entriesOf (storage m) p' !! "pods" =
     Some (apiserver.Pods (pod.NewREST
       {| pod.CloudProvider := Cloud c;
          pod.PodCache_ := NewPodCache (PodInfoGetter c) (podRegistry m);
          pod.PodInfoGetter_ := PodInfoGetter c;
          pod.Registry := podRegistry m;
          pod.Minions_ := Client c |}))).
Proof.
  intros m p' nodes. subst m p' nodes. rewrite New_init. cbn zeta. cbn [fst snd].
  split; [by repeat split|].
  unfold init, newMap, go, entriesOf; simpl. rewrite lookup_insert_eq; simpl.
  repeat split;
    repeat (rewrite lookup_insert_eq || rewrite lookup_insert_ne by done); done.
Qed.

(** X10.  What [New] does to its surroundings: the backend and the log
    are as [makeMinionRegistry] left them; the storage map of the master
    is one new map object at an address that was free, every map object
    allocated before is untouched; and one goroutine is added, the
    refresh of the pod cache of the master's pod registry every 30
    seconds. *)
Theorem New_effects (c : Config) (w : World) (p : Process) :
  let m := fst (fst (New cloudFailure cachingFailure outOfRange c w p)) in
  let w' := snd (fst (New cloudFailure cachingFailure outOfRange c w p)) in
  let p' := snd (New cloudFailure cachingFailure outOfRange c w p) in
  w' = snd (makeMinionRegistry cloudFailure cachingFailure c w) /\
  (exists l, storage m = Some l /\ heap p !! l = None /\
     is_Some (heap p' !! l) /\
     forall l', l' <> l -> heap p' !! l' = heap p !! l') /\
  goroutines p' =
    goroutines p ++
    [util.Forever (util.UpdateAllContainers
                     (NewPodCache (PodInfoGetter c) (podRegistry m)))
                  (30 * time.Second)].
Proof.
  intros m w' p'. subst m w' p'. rewrite New_init. cbn zeta. cbn [fst snd].
  split; [done|]. split.
  - match goal with |- context [init ?m0 ?cl ?g p] =>
      destruct (init_storage m0 cl g p) as (Hst & Hfresh & Hframe);
      destruct (init_spec m0 cl g p) as (l & M & Hst' & _ & Hheap & _)
    end.
    exists l. rewrite Hst' in Hst. injection Hst as ->.
    split; [done|]. split; [done|]. split; [|done].
    rewrite Hheap, lookup_insert_eq. by eexists.
  - reflexivity.
Qed.

(** X11.  Two masters built one after the other in the same process do
    not share their storage map: the second [New] allocates its own,
    leaves the entries of the first master's map as they were, builds its
    node registry on the backend and log the first left, and adds a second
    refresh goroutine after the first. *)
Theorem successive_masters (c1 c2 : Config) (w : World) (p : Process) :
  let '(m1, w1, p1) := New cloudFailure cachingFailure outOfRange c1 w p in
  let '(m2, w2, p2) := New cloudFailure cachingFailure outOfRange c2 w1 p1 in
  storage m1 <> storage m2 /\
  entriesOf (storage m1) p2 = entriesOf (storage m1) p1 /\
  w2 = snd (makeMinionRegistry cloudFailure cachingFailure c2 w1) /\
  goroutines p2 =
    goroutines p ++
    [util.Forever (util.UpdateAllContainers
                     (NewPodCache (PodInfoGetter c1) (podRegistry m1)))
                  (30 * time.Second);
     util.Forever (util.UpdateAllContainers
                     (NewPodCache (PodInfoGetter c2) (podRegistry m2)))
                  (30 * time.Second)].
Proof.
  rewrite New_init. cbn zeta.
  match goal with |- context [init ?m0 ?cl ?g p] =>
    destruct (init_spec m0 cl g p) as (l1 & M1 & Hst1 & _ & Hheap1 & _);
    pose proof (init_goroutines m0 cl g p) as Hgo1;
    destruct (init m0 cl g p) as [m1 p1] eqn:Hinit1
  end.
  cbn [fst snd] in *. rewrite New_init. cbn zeta.
  match goal with |- context [init ?m0 ?cl ?g p1] =>
    destruct (init_storage m0 cl g p1) as (Hst2 & Hfresh2 & Hframe2);
    pose proof (init_goroutines m0 cl g p1) as Hgo2;
    destruct (init m0 cl g p1) as [m2 p2] eqn:Hinit2
  end.
  cbn [fst snd podRegistry] in *.
  assert (heap p1 !! l1 = Some M1) as Hl1 by (by rewrite Hheap1, lookup_insert_eq).
  assert (l1 <> fresh (dom (heap p1))) as Hne by (intros Heq; congruence).
  split; [rewrite Hst1, Hst2; congruence|]. split.
  - rewrite Hst1. unfold entriesOf. by rewrite Hframe2.
  - split; [done|]. rewrite Hgo2, Hgo1, <- app_assoc. simpl.
    assert (podRegistry m1 =
            etcd.NewRegistry (EtcdHelper c1)
              (etcd.BasicManifestFactory
                 (etcd.NewRegistry (EtcdHelper c1) etcd.NilFactory))) as ->
      by (unfold init in Hinit1; destruct (newMap _ _); by inversion Hinit1).
    assert (podRegistry m2 =
            etcd.NewRegistry (EtcdHelper c2)
              (etcd.BasicManifestFactory
                 (etcd.NewRegistry (EtcdHelper c2) etcd.NilFactory))) as ->
      by (unfold init in Hinit2; destruct (newMap _ _); by inversion Hinit2).
    done.
Qed.

End NewFacts.

(** ** More on the event time-to-live *)

(** A whole number below [2^34] plus a fraction below one: the float64
    sum has the whole number or the next one as its integer part. *)
Lemma add_int_frac_near s (ps my : positive) (ey : Z) :
  let dx := Zpos (digits2_pos ps) in
  dx <= 34 -> -82 <= ey < 0 ->
  Zpos my < 2 ^ (- ey) ->
  exists q,
    float64.trunc (float64.add (binary_round 53 1024 s ps 0) (S754_finite s my ey)) =
      Some (cond_Zopp s q) /\
    Zpos ps <= q <= Zpos ps + 1.
Proof.
  intros dx Hdx Hey Hfrac.
  pose proof (digits2_pos_bounds ps) as [Hlo Hhi]. fold dx in Hlo, Hhi.
  assert (0 < dx) as Hdx0 by (unfold dx; lia).
  destruct (binary_round_int s ps) as (mx & -> & Hmx & Hdmx); [fold dx; lia|].
  fold dx in Hmx |- *.
  unfold float64.add, SFadd.
  set (ex := dx - 53). set (ez := Z.min ex ey).
  assert (-82 <= ez <= ex) as Hez by (unfold ez, ex; lia).
  destruct (shl_align_value mx ex ez) as (ax & -> & Hax); [lia|].
  destruct (shl_align_value my ey ez) as (ay & -> & Hay); [lia|].
  cbn [fst]. rewrite cond_Zopp_add.
  change (Zpos ax + Zpos ay) with (Zpos (ax + ay)).
  set (S := (ax + ay)%positive).
  assert (binary_normalize 53 1024 (cond_Zopp s (Zpos S)) ez false =
          binary_round 53 1024 s S ez) as -> by (by destruct s).
  assert (0 < 2 ^ (- ez)) as Hpz by (apply Z.pow_pos_nonneg; lia).
  assert (0 < 2 ^ (ey - ez)) as Hpy by (apply Z.pow_pos_nonneg; lia).
  assert (Zpos ax = Zpos ps * 2 ^ (- ez)) as Hax'.
  { rewrite Hax, Hmx, <- Z.mul_assoc, <- Z.pow_add_r by (unfold ex; lia).
    f_equal. f_equal. unfold ex. lia. }
  assert (2 ^ (- ez) = 2 ^ (- ey) * 2 ^ (ey - ez)) as Hsy
    by (rewrite <- Z.pow_add_r by lia; f_equal; lia).
  set (n := dx - ez - 53).
  assert (0 <= n) as Hn by (unfold n, ex in *; lia).
  assert (0 < 2 ^ n) as Hpn by (apply Z.pow_pos_nonneg; lia).
  assert (Zpos ps * 2 ^ (- ez) <= Zpos S < (Zpos ps + 1) * 2 ^ (- ez)) as [HSlo HShi].
  { unfold S. rewrite Pos2Z.inj_add, Hax', Hay, Hsy. nia. }
  assert (Zpos (digits2_pos S) = dx - ez) as HdS.
  { apply digits2_pos_unique.
    replace (2 ^ (dx - ez - 1)) with (2 ^ (dx - 1) * 2 ^ (- ez))
      by (rewrite <- Z.pow_add_r by lia; f_equal; lia).
    replace (2 ^ (dx - ez)) with (2 ^ dx * 2 ^ (- ez))
      by (rewrite <- Z.pow_add_r by lia; f_equal; lia).
    nia. }
  unfold binary_round. rewrite HdS, fexp64.
  replace (Z.max (dx - ez + ez - 53) (-1074)) with ex by (unfold ex; lia).
  assert (shl_align S ez ex = (S, ez)) as ->.
  { unfold shl_align. destruct (ex - ez) eqn:?; first [done | lia]. }
  destruct (round64_bounds s S ez loc_Exact) as (m & e & -> & He & [Hbl Hbu] & _);
    [lia | rewrite HdS; fold n; unfold n; lia |].
  rewrite HdS in He, Hbl, Hbu. fold n in He, Hbl, Hbu.
  replace (Z.max 0 n) with n in * by lia.
  assert (e < 0) as Heneg by (unfold n in He; lia).
  assert (0 < 2 ^ (e - ez)) as Hpe by (apply Z.pow_pos_nonneg; lia).
  assert (0 < 2 ^ (- e)) as Hpe' by (apply Z.pow_pos_nonneg; lia).
  assert (2 ^ (- ez) = 2 ^ (- e) * 2 ^ (e - ez)) as Hsplit
    by (rewrite <- Z.pow_add_r by lia; f_equal; lia).
  assert (2 ^ (- ez) = 2 ^ (- ez - n) * 2 ^ n) as Hsplit'
    by (rewrite <- Z.pow_add_r by (unfold n; lia); f_equal; lia).
  assert (0 < 2 ^ (- ez - n)) as Hpzn by (apply Z.pow_pos_nonneg; unfold n; lia).
  assert (Zpos ps * 2 ^ (- ez - n) <= Zpos S / 2 ^ n) as Hfloor.
  { apply Z.div_le_lower_bound; [done|]. rewrite Hsplit' in HSlo. lia. }
  pose proof (Z.mul_div_le (Zpos S) (2 ^ n) Hpn) as Hdl.
  assert (Zpos ps * 2 ^ (- e) <= Zpos m < (Zpos ps + 2) * 2 ^ (- e)) as [Hmlo Hmhi].
  { split.
    - apply (Z.mul_le_mono_pos_r _ _ (2 ^ (e - ez))); [done|].
      rewrite <- Z.mul_assoc, <- Hsplit. rewrite Hsplit' at 1. nia.
    - apply (Z.mul_lt_mono_pos_r (2 ^ (e - ez))); [done|].
      rewrite <- Z.mul_assoc, <- Hsplit.
      assert (2 ^ n <= 2 ^ (- ez)) by (rewrite Hsplit'; nia). nia. }
  exists (Zpos m / 2 ^ (- e)). split.
  - unfold float64.trunc. by rewrite Z.shiftl_div_pow2 by lia.
  - split.
    + apply Z.div_le_lower_bound; lia.
    + assert (Zpos m / 2 ^ (- e) < Zpos ps + 2); [|lia].
      apply Z.div_lt_upper_bound; lia.
Qed.

Lemma int64_seconds_digits (p : positive) :
  Zpos p < 2 ^ 34 -> Zpos (digits2_pos p) <= 34.
Proof. apply digits2_pos_le. Qed.

(** For a duration an [int64] can hold, of magnitude [a] and signed by
    [s], the integer part of the float64 seconds is the whole number of
    seconds or one more, in magnitude. *)
Lemma Seconds_signed_near s (a : Z) :
  0 <= a <= 2 ^ 63 ->
  exists q,
    float64.trunc
      (float64.add (float64.of_int (cond_Zopp s (a / time.Second)))
                   (float64.mul (float64.of_int (cond_Zopp s (a mod time.Second)))
                                float64.lit_1e_9)) =
      Some (cond_Zopp s q) /\
    a / time.Second <= q <= a / time.Second + 1 /\
    (a mod time.Second = 0 -> q = a / time.Second).
Proof.
  intros Ha.
  assert (0 <= a / time.Second < 2 ^ 34) as Hq.
  { unfold time.Second in *. split; [apply Z.div_pos; lia|].
    apply Z.div_lt_upper_bound; [lia|].
    change (2 ^ 63) with 9223372036854775808 in *.
    change (2 ^ 34) with 17179869184. lia. }
  assert (0 <= a mod time.Second < 1000000000) as Hr
    by (unfold time.Second; apply Z.mod_pos_bound; lia).
  destruct (a / time.Second) as [|pq|pq] eqn:Hpq; [| |lia];
    destruct (a mod time.Second) as [|pr|pr] eqn:Hpr; try lia.
  - exists 0. rewrite of_int_zero. split; [by destruct s|]. lia.
  - exists 0. rewrite of_int_zero, of_int_signed.
    destruct (subsecond_product s pr) as (m & e & -> & He & _ & Hm); [lia|].
    cbn [float64.add SFadd]. rewrite (trunc_small s m e) by lia.
    split; [by destruct s|]. lia.
  - exists (Zpos pq). rewrite of_int_zero, of_int_signed.
    pose proof (int64_seconds_digits pq ltac:(lia)) as Hd.
    destruct (binary_round_int s pq) as (mz & Hx & _); [lia|].
    assert (float64.add (binary_round 53 1024 s pq 0)
              (float64.mul (S754_zero false) float64.lit_1e_9) =
            binary_round 53 1024 s pq 0) as -> by (by rewrite Hx).
    split; [apply trunc_binary_round_int; lia|]. lia.
  - rewrite !of_int_signed.
    pose proof (int64_seconds_digits pq ltac:(lia)) as Hd.
    destruct (subsecond_product s pr) as (m & e & -> & He & _ & Hm); [lia|].
    destruct (add_int_frac_near s pq m e Hd He Hm) as (q & Htr & Hqb).
    exists q. split; [done|]. split; [lia|]. discriminate.
Qed.

Lemma Seconds_nonneg_near (d : time.Duration) :
  0 <= d < 2 ^ 63 ->
  exists q,
    float64.trunc (time.Seconds d) = Some q /\
    d / time.Second <= q <= d / time.Second + 1 /\
    (d mod time.Second = 0 -> q = d / time.Second).
Proof.
  intros Hd. destruct (Seconds_signed_near false d ltac:(lia)) as (q & Htr & Hq).
  destruct (quot_rem_signed false d) as [Hquot Hrem]; [lia|].
  simpl in Htr, Hquot, Hrem. exists q. split; [|done].
  unfold time.Seconds. by rewrite Hquot, Hrem.
Qed.

Lemma Seconds_neg_near (d : time.Duration) :
  - 2 ^ 63 <= d <= 0 ->
  exists q,
    float64.trunc (time.Seconds d) = Some (- q) /\
    (- d) / time.Second <= q <= (- d) / time.Second + 1.
Proof.
  intros Hd. destruct (Seconds_signed_near true (- d) ltac:(lia)) as (q & Htr & Hq & _).
  destruct (quot_rem_signed true (- d)) as [Hquot Hrem]; [lia|].
  simpl in Htr, Hquot, Hrem. rewrite Z.opp_involutive in Hquot, Hrem.
  exists q. split; [|done]. unfold time.Seconds. by rewrite Hquot, Hrem.
Qed.

(** X16.  For every retention duration an [int64] can hold that is not
    negative, the time-to-live of the event registry is the whole number
    of seconds of the duration or one second more, never less, whatever
    the implementation makes of conversions out of range. *)
Theorem event_ttl_within_one_second `{Backend Store}
    (cloudFailure : cloudprovider.Interface -> string -> api.NodeResources -> option error)
    (cachingFailure : minion.Registry -> time.Duration -> Store -> option error)
    (outOfRange : float64.t -> Z) (c : Config) (w : World) (p : Process) :
  0 <= EventTTL c < 2 ^ 63 ->
  let ttl := event.ev_ttl
    (eventRegistry (fst (fst (New cloudFailure cachingFailure outOfRange c w p)))) in
  EventTTL c / time.Second <= ttl <= EventTTL c / time.Second + 1.
Proof.
  intros Hd ttl. subst ttl. rewrite New_eventRegistry. simpl event.ev_ttl.
  destruct (Seconds_nonneg_near (EventTTL c) Hd) as (q & Htr & Hq & _).
  assert (0 <= EventTTL c / time.Second < 2 ^ 34) as Hw.
  { unfold time.Second in *. split; [apply Z.div_pos; lia|].
    apply Z.div_lt_upper_bound; [lia|].
    change (2 ^ 63) with 9223372036854775808 in *.
    change (2 ^ 34) with 17179869184. lia. }
  rewrite (to_uint64_trunc _ _ _ Htr).
  change (2 ^ 34) with 17179869184 in *. change (2 ^ 64) with 18446744073709551616.
  destruct (Z.leb_spec 0 q), (Z.ltb_spec q 18446744073709551616); simpl;
    first [lia | done].
Qed.

(** X17.  A retention duration of a whole number of seconds, not
    negative and of any size an [int64] can hold, is converted exactly:
    the time-to-live is that number of seconds. *)
Theorem event_ttl_whole_seconds `{Backend Store}
    (cloudFailure : cloudprovider.Interface -> string -> api.NodeResources -> option error)
    (cachingFailure : minion.Registry -> time.Duration -> Store -> option error)
    (outOfRange : float64.t -> Z) (c : Config) (w : World) (p : Process) :
  0 <= EventTTL c < 2 ^ 63 ->
  EventTTL c mod time.Second = 0 ->
  event.ev_ttl
    (eventRegistry (fst (fst (New cloudFailure cachingFailure outOfRange c w p)))) =
  EventTTL c / time.Second.
Proof.
  intros Hd Hwhole. rewrite New_eventRegistry. simpl event.ev_ttl.
  destruct (Seconds_nonneg_near (EventTTL c) Hd) as (q & Htr & _ & Hexact).
  rewrite (Hexact Hwhole) in Htr.
  assert (0 <= EventTTL c / time.Second < 2 ^ 34) as Hw.
  { unfold time.Second in *. split; [apply Z.div_pos; lia|].
    apply Z.div_lt_upper_bound; [lia|].
    change (2 ^ 63) with 9223372036854775808 in *.
    change (2 ^ 34) with 17179869184. lia. }
  rewrite (to_uint64_trunc _ _ _ Htr).
  change (2 ^ 34) with 17179869184 in *. change (2 ^ 64) with 18446744073709551616.
  destruct (Z.leb_spec 0 (EventTTL c / time.Second)),
    (Z.ltb_spec (EventTTL c / time.Second) 18446744073709551616); simpl;
    first [lia | done].
Qed.

(** X18.  For every negative retention duration of one second or more
    that an [int64] can hold, the conversion to [uint64] is out of range:
    the time-to-live is what the implementation makes of it.  The
    integer part of the float64 seconds is minus the whole number of
    seconds of the magnitude, or one less; an implementation that wraps
    around yields [2^64] minus that magnitude. *)
Theorem event_ttl_negative `{Backend Store}
    (cloudFailure : cloudprovider.Interface -> string -> api.NodeResources -> option error)
    (cachingFailure : minion.Registry -> time.Duration -> Store -> option error)
    (outOfRange : float64.t -> Z) (c : Config) (w : World) (p : Process) :
  - 2 ^ 63 <= EventTTL c <= - time.Second ->
  let ttl := event.ev_ttl
    (eventRegistry (fst (fst (New cloudFailure cachingFailure outOfRange c w p)))) in
  ttl = outOfRange (time.Seconds (EventTTL c)) /\
  exists q,
    float64.trunc (time.Seconds (EventTTL c)) = Some (- q) /\
    (- EventTTL c) / time.Second <= q <= (- EventTTL c) / time.Second + 1 /\
    float64.wrapAround (time.Seconds (EventTTL c)) = 2 ^ 64 - q.
Proof.
  intros Hd ttl. subst ttl. rewrite New_eventRegistry. simpl event.ev_ttl.
  unfold time.Second in Hd.
  destruct (Seconds_neg_near (EventTTL c) ltac:(lia)) as (q & Htr & Hq).
  assert (1 <= (- EventTTL c) / time.Second < 2 ^ 34) as Hw.
  { unfold time.Second in *. split.
    - apply Z.div_le_lower_bound; lia.
    - apply Z.div_lt_upper_bound; [lia|].
      change (2 ^ 63) with 9223372036854775808 in *.
      change (2 ^ 34) with 17179869184. lia. }
  change (2 ^ 34) with 17179869184 in *.
  split.
  - rewrite (to_uint64_trunc _ _ _ Htr).
    destruct (Z.leb_spec 0 (- q)); [lia | done].
  - exists q. split; [done|]. split; [done|].
    unfold float64.wrapAround. rewrite Htr.
    change (2 ^ 64) with 18446744073709551616.
    symmetry. apply (Z.mod_unique_pos _ _ (-1)); lia.
Qed.

(** ** The etcd helper *)

(** X19.  [NewEtcdHelper]: an empty version string stands for the latest
    version, the result is the same; whether an error is returned depends
    on the version and not on the client; without error the helper holds
    the client it was given; with an error the helper is the zero value
    of the struct. *)
Theorem NewEtcdHelper_version (latestVersion : string)
    (InterfacesFor : string -> meta.VersionInterfaces + error)
    (client client' : option EtcdGetSet) (version : string) :
  NewEtcdHelper latestVersion InterfacesFor client "" =
    NewEtcdHelper latestVersion InterfacesFor client latestVersion /\
  snd (NewEtcdHelper latestVersion InterfacesFor client version) =
    snd (NewEtcdHelper latestVersion InterfacesFor client' version) /\
  (snd (NewEtcdHelper latestVersion InterfacesFor client version) = None ->
     helper.Client (fst (NewEtcdHelper latestVersion InterfacesFor client version)) =
       client) /\
  (snd (NewEtcdHelper latestVersion InterfacesFor client version) <> None ->
     fst (NewEtcdHelper latestVersion InterfacesFor client version) = helper.zero).
Proof.
  unfold NewEtcdHelper. split; [|split; [|split]].
  - simpl. by destruct (String.eqb_spec latestVersion "") as [->|].
  - by destruct (InterfacesFor _).
  - by destruct (InterfacesFor _).
  - by destruct (InterfacesFor _).
Qed.

(** ** The properties above at concrete inputs *)

Lemma cloud_path_creates_nothing_witness :
  let c := twoNodesWith (Some someCloud) "n.*" true (30 * time.Second) in
  base (fst (makeMinionRegistry neverFails neverFails c (emptyWorld []))) =
    minion.CloudRegistry someCloud "n.*" (NodeResources c) /\
  backend (snd (makeMinionRegistry neverFails neverFails c (emptyWorld []))) = [] /\
  snd (backend (snd
    (makeMinionRegistry (H:=recording keyedStore) neverFails (onRecorded neverFails) c
       {| backend := ([], []); log := [] |}))) = [].
Proof.
  apply (cloud_path_creates_nothing (H:=keyedStore) neverFails neverFails
           (twoNodesWith (Some someCloud) "n.*" true (30 * time.Second))
           (emptyWorld []) someCloud).
  - reflexivity.
  - simpl. lia.
  - reflexivity.
Defined.

Lemma cloud_needs_handle_and_pattern_witness :
  let c := twoNodesWith (Some someCloud) "" false 0 in
  let run := makeMinionRegistry (alwaysFails "no credentials") neverFails c
                                (emptyWorld []) in
  run = makeMinionRegistry neverFails neverFails c (emptyWorld []) /\
  base (fst run) =
    minion.EtcdRegistry (etcd.NewRegistry (EtcdHelper c) etcd.NilFactory) /\
  (let recorded :=
     backend (snd
       (makeMinionRegistry (H:=recording keyedStore) (alwaysFails "no credentials")
          (onRecorded neverFails) c {| backend := ([], []); log := [] |})) in
   map fst (snd recorded) =
     map (fun minionID =>
            {| api.TypeMeta_ := {| api.ID := minionID |};
               api.NodeResources_ := NodeResources c |}) (Minions c) /\
   fst recorded = backend (snd run)).
Proof.
  apply (cloud_needs_handle_and_pattern (H:=keyedStore)
           (alwaysFails "no credentials") neverFails neverFails
           (twoNodesWith (Some someCloud) "" false 0) (emptyWorld [])).
  right. reflexivity.
Defined.

Lemma cache_off_when_ttl_not_positive_witness :
  let c := twoNodesWith None "" true (- (30 * time.Second)) in
  makeMinionRegistry neverFails (alwaysFails "list failed") c (emptyWorld []) =
    makeMinionRegistry neverFails neverFails (withoutCache c) (emptyWorld []) /\
  cacheFree (fst (makeMinionRegistry neverFails (alwaysFails "list failed") c
                    (emptyWorld []))) = true.
Proof.
  apply (cache_off_when_ttl_not_positive (H:=keyedStore) neverFails
           (alwaysFails "list failed") neverFails
           (twoNodesWith None "" true (- (30 * time.Second))) (emptyWorld [])).
  vm_compute. discriminate.
Defined.

Lemma decorators_leave_backend_witness :
  let c := twoNodesWith None "" false 0 in
  let c' := twoNodesWith None "" true (30 * time.Second) in
  backend (snd (makeMinionRegistry neverFails neverFails c (emptyWorld []))) =
    backend (snd (makeMinionRegistry neverFails (alwaysFails "list failed") c'
                    (emptyWorld []))) /\
  base (fst (makeMinionRegistry neverFails neverFails c (emptyWorld []))) =
    base (fst (makeMinionRegistry neverFails (alwaysFails "list failed") c'
                 (emptyWorld []))).
Proof.
  apply (decorators_leave_backend (H:=keyedStore) neverFails neverFails
           (alwaysFails "list failed")
           (twoNodesWith None "" false 0)
           (twoNodesWith None "" true (30 * time.Second)) (emptyWorld []));
    reflexivity.
Defined.

Lemma export_before_init_witness :
  heap (snd (export V1beta1 beforeInit emptyProcess))
    !! exported V1beta1 beforeInit emptyProcess = Some ∅ /\
  heap (snd (export V1beta1 beforeInit emptyProcess)) =
    <[exported V1beta1 beforeInit emptyProcess := ∅]> (heap emptyProcess).
Proof.
  apply (export_before_init V1beta1 beforeInit emptyProcess). reflexivity.
Defined.

Lemma event_ttl_within_one_second_witness :
  let ttl := event.ev_ttl
    (eventRegistry (fst (fst (New neverFails neverFails float64.saturate
                                  (withEventTTL twoNodes 16777216999999999)
                                  (emptyWorld []) emptyProcess)))) in
  16777216999999999 / time.Second <= ttl <= 16777216999999999 / time.Second + 1.
Proof.
  apply (event_ttl_within_one_second (H:=keyedStore) neverFails neverFails
           float64.saturate (withEventTTL twoNodes 16777216999999999)
           (emptyWorld []) emptyProcess).
  vm_compute. split; [discriminate | reflexivity].
Defined.

Lemma event_ttl_whole_seconds_witness :
  event.ev_ttl
    (eventRegistry (fst (fst (New neverFails neverFails float64.saturate
                                  (withEventTTL twoNodes (9223372036 * time.Second))
                                  (emptyWorld []) emptyProcess)))) =
  9223372036 * time.Second / time.Second.
Proof.
  apply (event_ttl_whole_seconds (H:=keyedStore) neverFails neverFails
           float64.saturate (withEventTTL twoNodes (9223372036 * time.Second))
           (emptyWorld []) emptyProcess).
  - vm_compute. split; [discriminate | reflexivity].
  - reflexivity.
Defined.

Lemma event_ttl_negative_witness :
  event.ev_ttl
    (eventRegistry (fst (fst (New neverFails neverFails float64.saturate
                                  (withEventTTL twoNodes (- (48 * 3600 * time.Second)))
                                  (emptyWorld []) emptyProcess)))) =
  float64.saturate (time.Seconds (- (48 * 3600 * time.Second))).
Proof.
  destruct (event_ttl_negative (H:=keyedStore) neverFails neverFails
              float64.saturate (withEventTTL twoNodes (- (48 * 3600 * time.Second)))
              (emptyWorld []) emptyProcess) as [Httl _].
  - vm_compute. split; discriminate.
  - exact Httl.
Defined.
